(** * Batching and sequence alignment of the QA pipeline (src/model/batcher.py)

    Shallow embedding of [pad_and_sort], [collate_batch], [QABatch] and of
    [mask_sequence] (src/model/modules/masked.py).

    Tensors are modelled as nested lists of integers: a 1-D LongTensor is a
    [list nat] or [list Z], a 2-D padded batch is a [list (list Z)] whose rows
    all have the padded width, the 3-D character grid a
    [list (list (list Z))].  Exceptions raised by the code (or by numpy and
    torch underneath it) are the constructors of [exn]; a computation that
    may raise returns a [result]. *)

From Stdlib Require Import ZArith.
From stdpp Require Import base list sorting strings gmap.

Open Scope nat_scope.

(** ** Exceptions and the error monad *)

Inductive exn :=
  (** [pad_sequence] on an empty list of sequences *)
  | EmptySequenceList
  (** [max(...)] over an empty generator (a sample with no words) *)
  | MaxOfEmpty
  (** indexing a tensor with a float tensor *)
  | NonLongIndex
  (** an index beyond a tensor dimension *)
  | IndexOutOfRange
  (** numpy slice assignment with mismatching shapes *)
  | BroadcastMismatch.

Inductive result (A : Type) : Type :=
  | Ok (a : A)
  | Err (e : exn).
Arguments Ok {A} a.
Arguments Err {A} e.

#[global] Instance result_ret : MRet result := fun A a => Ok a.
#[global] Instance result_bind : MBind result :=
  fun A B f m => match m with Ok a => f a | Err e => Err e end.

(** ** torch.sort

    [torch.sort] returns the values and the indices of a sort.  Its
    documented contract (with the default [stable=False]) is that the
    indices are a permutation of [0 .. n-1] under which the keys come out
    ordered; the order among equal keys is not specified.  The developments
    below are parametric in the function [argsort descending keys] giving the
    returned indices, and assume only this contract. *)

Definition sort_rel (descending : bool) (a b : nat) : Prop :=
  if descending then b <= a else a <= b.

Definition torch_sort_ok (descending : bool) (keys : list nat) (idx : list nat) : Prop :=
  idx ≡ₚ seq 0 (length keys) /\
  Sorted (sort_rel descending) ((fun i => keys !!! i) <$> idx).

Definition argsort_contract (argsort : bool -> list nat -> list nat) : Prop :=
  forall descending keys, torch_sort_ok descending keys (argsort descending keys).

(** ** Tensors *)

Inductive dtype := Long | Float.

(** A 1-D index tensor: its dtype matters, only long tensors index. *)
Record idx_tensor := mk_idx { idx_dtype : dtype; idx_vals : list nat }.

(** [t[idx]] on the first dimension. *)
Fixpoint gather_rows {A} (m : list A) (ix : list nat) : result (list A) :=
  match ix with
  | [] => Ok []
  | i :: ix' =>
      match m !! i with
      | Some r => rs ← gather_rows m ix'; Ok (r :: rs)
      | None => Err IndexOutOfRange
      end
  end.

Definition index_rows {A} (m : list A) (ix : idx_tensor) : result (list A) :=
  match idx_dtype ix with
  | Float => Err NonLongIndex
  | Long => gather_rows m (idx_vals ix)
  end.

(** [torch.nn.utils.rnn.pad_sequence(seq, batch_first=True)], padding value
    0: every sequence is padded to the longest one; the empty list is
    refused ("received an empty list of sequences"). *)
Definition pad_to (n : nat) (l : list Z) : list Z :=
  l ++ replicate (n - length l) 0%Z.

Definition pad_sequence (seqs : list (list Z)) : result (list (list Z)) :=
  match seqs with
  | [] => Err EmptySequenceList
  | _ => Ok (pad_to (max_list_with length seqs) <$> seqs)
  end.

(** ** mask_sequence (masked.py) : [(input_batch != mask_index).double()]
    with the default [mask_index = 0]; the doubles 1.0 and 0.0 as 1 and 0. *)
Definition mask_sequence (input_batch : list (list Z)) : list (list Z) :=
  (fun row : list Z => (fun x : Z => if decide (x = 0%Z) then 0%Z else 1%Z) <$> row)
    <$> input_batch.

(** ** pad_and_sort *)

Definition truncate (max_sequence_size : nat) (seq : list (list Z)) : list (list Z) :=
  if decide (0 < max_sequence_size) then take max_sequence_size <$> seq else seq.

Definition pad_and_sort (argsort : bool -> list nat -> list nat)
    (seq : list (list Z)) (max_sequence_size : nat)
    : result (list (list Z) * idx_tensor * idx_tensor * list nat) :=
  if decide (length seq = 1) then
    (* batch = t.LongTensor(seq); orig_idxs = length_idxs = t.zeros((1)) *)
    Ok (seq, mk_idx Float [0], mk_idx Float [0], [length (seq !!! 0)])
  else
    let seq := truncate max_sequence_size seq in
    let lengths := length <$> seq in
    let length_idxs := argsort true lengths in
    let sorted_lengths := (fun i => lengths !!! i) <$> length_idxs in
    let seq_sorted := (fun i => seq !!! i) <$> length_idxs in
    batch ← pad_sequence seq_sorted;
    let orig_idxs := argsort false length_idxs in
    Ok (batch, mk_idx Long orig_idxs, mk_idx Long length_idxs, sorted_lengths).

(** The inputs after the cap, zero-padded to the common width, in their
    original order: the array the index maps are meant to relate to the
    length-sorted batch. *)
Definition padded_input (seq : list (list Z)) (max_sequence_size : nat) : list (list Z) :=
  let seq := truncate max_sequence_size seq in
  pad_to (max_list_with length seq) <$> seq.

(** ** Two sorts that meet the torch.sort contract

    Insertion sorts of the indices [0 .. n-1] by key.  With
    [ties_first = false] an index goes after the earlier indices with an
    equal key (a stable sort, what [torch.sort(stable=True)] returns); with
    [ties_first = true] it goes before them, which the contract of the
    default [stable=False] equally allows. *)

Definition goes_before (descending ties_first : bool) (kj ki : nat) : bool :=
  if descending then (if ties_first then ki <? kj else ki <=? kj)
  else (if ties_first then kj <? ki else kj <=? ki).

Fixpoint insert_idx (keys : list nat) (descending ties_first : bool)
    (i : nat) (l : list nat) : list nat :=
  match l with
  | [] => [i]
  | j :: l' =>
      if goes_before descending ties_first (keys !!! j) (keys !!! i)
      then j :: insert_idx keys descending ties_first i l'
      else i :: l
  end.

Definition insertion_argsort (ties_first : bool) (descending : bool) (keys : list nat)
    : list nat :=
  foldl (fun acc i => insert_idx keys descending ties_first i acc) []
    (seq 0 (length keys)).

(** ** Samples (src/model/qa.py, [EncodedSample])

    [has_answer] is not read by the batcher and is left out. *)
Record EncodedSample := mk_sample {
  question_id : string;
  question_words : list Z;
  question_chars : list (list Z);
  context_words : list Z;
  context_chars : list (list Z);
  span_starts : list Z;
  span_ends : list Z
}.

(** The [EncodedSample] constructor builds [span_starts] and [span_ends]
    with [np.zeros_like(self.context_words)]. *)
Definition spans_aligned (s : EncodedSample) : Prop :=
  length (span_starts s) = length (context_words s) /\
  length (span_ends s) = length (context_words s).

(** ** QABatch *)

Inductive device := CPU | CUDA (ordinal : nat).

Record tensor (A : Type) := mk_tensor { tdevice : device; tdata : A }.
Arguments mk_tensor {A} tdevice tdata.
Arguments tdevice {A} t.
Arguments tdata {A} t.

(** [tensor.to(device)] *)
Definition tensor_to {A} (d : device) (x : tensor A) : tensor A :=
  mk_tensor d (tdata x).

Module QABatch.

Record t := mk {
  question_ids : list string;
  question_words : tensor (list (list Z));
  question_chars : tensor (list (list (list Z)));
  question_lens : tensor (list nat);
  question_len_idxs : tensor idx_tensor;
  question_orig_idxs : tensor idx_tensor;
  question_mask : tensor (list (list Z));
  context_words : tensor (list (list Z));
  context_chars : tensor (list (list (list Z)));
  context_lens : tensor (list nat);
  context_len_idxs : tensor idx_tensor;
  context_orig_idxs : tensor idx_tensor;
  context_mask : tensor (list (list Z));
  answer_span_starts : tensor (list (list Z));
  answer_span_ends : tensor (list (list Z))
}.

(** [QABatch.to]: every tensor field is replaced by its copy on [device];
    the method mutates [self] and returns it, so the returned record is the
    new state of the object. *)
Definition to (device : device) (self : t) : t :=
  mk (question_ids self)
     (tensor_to device (question_words self))
     (tensor_to device (question_chars self))
     (tensor_to device (question_lens self))
     (tensor_to device (question_len_idxs self))
     (tensor_to device (question_orig_idxs self))
     (tensor_to device (question_mask self))
     (tensor_to device (context_words self))
     (tensor_to device (context_chars self))
     (tensor_to device (context_lens self))
     (tensor_to device (context_len_idxs self))
     (tensor_to device (context_orig_idxs self))
     (tensor_to device (context_mask self))
     (tensor_to device (answer_span_starts self))
     (tensor_to device (answer_span_ends self)).

(** [QABatch.__len__] *)
Definition len (self : t) : nat := length (question_ids self).

End QABatch.

(** ** collate_batch *)

(** [max(word.size for word in chars)]: [max] of an empty generator raises. *)
Definition max_word_size (chars : list (list Z)) : result nat :=
  match chars with
  | [] => Err MaxOfEmpty
  | _ => Ok (max_list_with length chars)
  end.

(** The collecting loop's running maxima [max_question_word_len] and
    [max_ctx_word_len]. *)
Fixpoint collect_max_word_lens (batch : list EncodedSample) (max_question_word_len max_ctx_word_len : nat)
    : result (nat * nat) :=
  match batch with
  | [] => Ok (max_question_word_len, max_ctx_word_len)
  | sample :: rest =>
      wq ← max_word_size (question_chars sample);
      wc ← max_word_size (context_chars sample);
      collect_max_word_lens rest (max_question_word_len `max` wq) (max_ctx_word_len `max` wc)
  end.

(** [np.zeros(...)] has dtype float64: every cell is a float64 value; the
    grids only ever hold integral ones, kept here as the integers they
    denote. *)
Definition zeros3 (n l w : nat) : list (list (list Z)) :=
  replicate n (replicate l (replicate w 0%Z)).

(** The float64 nearest to the integer [z] (ties to even), as numpy's
    int64 to float64 conversion gives it: integers of magnitude below
    [2^53] are exact, larger ones keep 53 significant bits. *)
Definition f64_round (z : Z) : Z :=
  let a := Z.abs z in
  if decide (a < 2 ^ 53)%Z then z
  else
    let e := (Z.log2 a - 52)%Z in
    let q := (a / 2 ^ e)%Z in
    let r := (a mod 2 ^ e)%Z in
    let half := (2 ^ (e - 1))%Z in
    let q' := if decide (half < r \/ (r = half /\ Z.odd q = true))%Z then (q + 1)%Z else q in
    (Z.sgn z * q' * 2 ^ e)%Z.

(** [t.LongTensor] of a float64 array: each (integral) value cast to
    int64; values outside the int64 range, where the C++ cast is undefined,
    give the x86 result [-2^63]. *)
Definition f64_to_int64 (x : Z) : Z :=
  if decide (- 2 ^ 63 <= x < 2 ^ 63)%Z then x else (- 2 ^ 63)%Z.

(** [t.LongTensor] of a whole 3-D float64 array. *)
Definition grid_to_int64 (g : list (list (list Z))) : list (list (list Z)) :=
  (fun plane : list (list Z) => (fun cell : list Z => f64_to_int64 <$> cell) <$> plane) <$> g.


(** [chars[batch_idx, word_idx, : word.size] = word] on the float64 array:
    the int64 ids are converted to float64. *)
Definition write_word (grid : list (list (list Z))) (batch_idx word_idx : nat) (word : list Z)
    : result (list (list (list Z))) :=
  match grid !! batch_idx with
  | None => Err IndexOutOfRange
  | Some plane =>
      match plane !! word_idx with
      | None => Err IndexOutOfRange
      | Some cell =>
          if decide (length word <= length cell)
          then Ok (<[batch_idx := <[word_idx := (f64_round <$> word) ++ drop (length word) cell]> plane]> grid)
          else Err BroadcastMismatch
      end
  end.

(** [for word_idx, word in enumerate(chars): if max_size > 0 and word_idx >= max_size: break; ...] *)
Fixpoint write_words (grid : list (list (list Z))) (batch_idx max_size word_idx : nat)
    (words : list (list Z)) : result (list (list (list Z))) :=
  match words with
  | [] => Ok grid
  | word :: rest =>
      if decide (0 < max_size /\ max_size <= word_idx) then Ok grid
      else
        grid ← write_word grid batch_idx word_idx word;
        write_words grid batch_idx max_size (S word_idx) rest
  end.

(** [for batch_idx, chars in enumerate(chars_list): ...] *)
Fixpoint write_samples (grid : list (list (list Z))) (batch_idx max_size : nat)
    (chars_list : list (list (list Z))) : result (list (list (list Z))) :=
  match chars_list with
  | [] => Ok grid
  | chars :: rest =>
      grid ← write_words grid batch_idx max_size 0 chars;
      write_samples grid (S batch_idx) max_size rest
  end.

(** [np.zeros((batch_size, max_len, max_word_len))] followed by the loops
    and by [t.LongTensor(...)]; the two fields run the same code. *)
Definition build_char_grid (batch_size max_len max_word_len max_size : nat)
    (chars_list : list (list (list Z))) : result (list (list (list Z))) :=
  grid ← write_samples (zeros3 batch_size max_len max_word_len) 0 max_size chars_list;
  Ok (grid_to_int64 grid).

(** [lens[0]] *)
Definition first_len (lens : list nat) : result nat :=
  match lens with
  | [] => Err IndexOutOfRange
  | l :: _ => Ok l
  end.

Definition on_cpu {A} (a : A) : tensor A := mk_tensor CPU a.

Definition collate_batch (argsort : bool -> list nat -> list nat)
    (batch : list EncodedSample) (max_question_size max_context_size : nat)
    : result QABatch.t :=
  let question_words_list := question_words <$> batch in
  let question_chars_list := question_chars <$> batch in
  let question_ids := question_id <$> batch in
  let context_words_list := context_words <$> batch in
  let context_chars_list := context_chars <$> batch in
  let answer_span_starts := span_starts <$> batch in
  let answer_span_ends := span_ends <$> batch in
  let batch_size := length batch in
  '(max_question_word_len, max_ctx_word_len) ← collect_max_word_lens batch 0 0;
  '(question_words, question_orig_idxs, question_len_idxs, question_lens)
    ← pad_and_sort argsort question_words_list max_question_size;
  question_words ← index_rows question_words question_orig_idxs;
  let question_mask := mask_sequence question_words in
  max_question_len ← first_len question_lens;
  question_chars ← build_char_grid batch_size max_question_len max_question_word_len
                     max_question_size question_chars_list;
  '(context_words, context_orig_idxs, context_len_idxs, context_lens)
    ← pad_and_sort argsort context_words_list max_context_size;
  context_words ← index_rows context_words context_orig_idxs;
  let context_mask := mask_sequence context_words in
  max_context_len ← first_len context_lens;
  context_chars ← build_char_grid batch_size max_context_len max_ctx_word_len
                    max_context_size context_chars_list;
  '(answer_span_starts, _, _, _) ← pad_and_sort argsort answer_span_starts max_context_size;
  answer_span_starts ← index_rows answer_span_starts context_orig_idxs;
  '(answer_span_ends, _, _, _) ← pad_and_sort argsort answer_span_ends max_context_size;
  answer_span_ends ← index_rows answer_span_ends context_orig_idxs;
  Ok (QABatch.mk question_ids
        (on_cpu question_words) (on_cpu question_chars) (on_cpu question_lens)
        (on_cpu question_len_idxs) (on_cpu question_orig_idxs) (on_cpu question_mask)
        (on_cpu context_words) (on_cpu context_chars) (on_cpu context_lens)
        (on_cpu context_len_idxs) (on_cpu context_orig_idxs) (on_cpu context_mask)
        (on_cpu answer_span_starts) (on_cpu answer_span_ends)).

(** Scenario of the spec: [[1;2]; [5;6;7]] without a cap. *)
Example pad_and_sort_scenario :
  pad_and_sort (insertion_argsort false) [[1;2]; [5;6;7]]%Z 0 =
  Ok ([[5;6;7]; [1;2;0]]%Z, mk_idx Long [1;0], mk_idx Long [1;0], [3;2]).
Proof. reflexivity. Qed.

(** ** Shapes and the expected character grid *)

(** A 2-D array of [rows] rows of [width] entries each. *)
Definition has_shape2 (m : list (list Z)) (rows width : nat) : Prop :=
  length m = rows /\ Forall (fun row => length row = width) m.

(** A 3-D array of shape [(n, l, w)]. *)
Definition has_shape3 (g : list (list (list Z))) (n l w : nat) : Prop :=
  length g = n /\
  Forall (fun plane => length plane = l /\ Forall (fun cell => length cell = w) plane) g.



(** The longest word, in characters, over all samples of a field. *)
Definition longest_word (chars_list : list (list (list Z))) : nat :=
  max_list_with (max_list_with length) chars_list.


(** The number of word positions of a field after the cap: the longest
    capped sequence of word ids. *)
Definition max_word_count (sequences : list (list Z)) (max_size : nat) : nat :=
  max_list_with length (truncate max_size sequences).

(** [get_collator(max_question_size=0, max_context_size=0)]: the
    collate function handed to the data loaders. *)
Definition get_collator (argsort : bool -> list nat -> list nat)
    (max_question_size max_context_size : nat) : list EncodedSample -> result QABatch.t :=
  fun batch => collate_batch argsort batch max_question_size max_context_size.

(** The length of a sequence after the cap ([0] meaning no cap). *)
Definition capped_len (max_size : nat) (l : list Z) : nat :=
  if decide (0 < max_size) then Nat.min max_size (length l) else length l.

(** A sample as the encoders of qa.py build it: at least one word on each
    side, one character list per word, span vectors as long as the context. *)
Definition well_formed_sample (s : EncodedSample) : Prop :=
  question_chars s <> [] /\ context_chars s <> [] /\
  length (question_chars s) = length (question_words s) /\
  length (context_chars s) = length (context_words s) /\
  spans_aligned s.

(** Two samples, built as the [EncodedSample] constructor builds them,
    used to exercise [collate_batch]. *)
Definition example_q1 : EncodedSample :=
  mk_sample "q1" [1; 2]%Z [[3]; [4; 5]]%Z [7; 8; 9]%Z [[1]; [2; 2]; [3]]%Z
    [0; 1; 0]%Z [0; 0; 1]%Z.

Definition example_q2 : EncodedSample :=
  mk_sample "q2" [4; 5; 6]%Z [[3; 3; 3]; [4]; [1]]%Z [9]%Z [[1; 1; 1; 1]]%Z
    [0]%Z [0]%Z.

Definition example_samples : list EncodedSample := [example_q1; example_q2].


(** * Encoding of samples (src/model/qa.py)

    The encoders that build the [EncodedSample]s the batcher consumes.
    Tokens come from [model.tokenizer] and the processed text from
    [model.text_processor], outside this code: the tokenizer and the text
    processor are parameters.  Python strings are modelled as [string]
    (one [ascii] per character), a [Set] of answers as the list of its
    elements in iteration order, and [Dict[str, int]] as [gmap string Z]. *)

Inductive qa_exn :=
  (** a failed [assert] in [Processed.__init__] *)
  | AssertionError
  (** unpacking [token_starts, token_ends] from the [zip] of no spans:
      not enough values to unpack *)
  | UnpackError
  (** numpy index assignment [a[idxs] = 1] with an index out of bounds *)
  | NumpyIndexError.

Inductive qa_result (A : Type) : Type :=
  | QOk (a : A)
  | QErr (e : qa_exn).
Arguments QOk {A} a.
Arguments QErr {A} e.

#[global] Instance qa_result_ret : MRet qa_result := fun A a => QOk a.
#[global] Instance qa_result_bind : MBind qa_result :=
  fun A B f m => match m with QOk a => f a | QErr e => QErr e end.

(** A list comprehension whose element expression may raise. *)
Fixpoint qa_map {A B} (f : A -> qa_result B) (l : list A) : qa_result (list B) :=
  match l with
  | [] => QOk []
  | x :: l' => y ← f x; ys ← qa_map f l'; QOk (y :: ys)
  end.

(** [dict.get(key, default)] *)
Definition dict_get (m : gmap string Z) (key : string) (default : Z) : Z :=
  match m !! key with
  | Some v => v
  | None => default
  end.

(** [bisect.bisect_right(a, x)] and [bisect.bisect_left(a, x)] of Python's
    standard library: the binary search
    [while lo < hi: mid = (lo + hi) // 2; ...].  Each round shrinks
    [hi - lo], so [hi - lo] rounds of fuel are never exhausted. *)
Fixpoint bisect_right_loop (fuel : nat) (a : list Z) (x : Z) (lo hi : nat) : nat :=
  match fuel with
  | O => lo
  | S fuel =>
      if decide (lo < hi) then
        let mid := (lo + hi) / 2 in
        if decide (x < a !!! mid)%Z then bisect_right_loop fuel a x lo mid
        else bisect_right_loop fuel a x (S mid) hi
      else lo
  end.

Definition bisect_right (a : list Z) (x : Z) : nat :=
  bisect_right_loop (length a) a x 0 (length a).

Fixpoint bisect_left_loop (fuel : nat) (a : list Z) (x : Z) (lo hi : nat) : nat :=
  match fuel with
  | O => lo
  | S fuel =>
      if decide (lo < hi) then
        let mid := (lo + hi) / 2 in
        if decide (a !!! mid < x)%Z then bisect_left_loop fuel a x (S mid) hi
        else bisect_left_loop fuel a x lo mid
      else lo
  end.

Definition bisect_left (a : list Z) (x : Z) : nat :=
  bisect_left_loop (length a) a x 0 (length a).

Module Token.
(** [model.tokenizer.Token]: the word and its character span
    [(start, end)] in the text. *)
Record t := mk { word : string; span : Z * Z }.
End Token.

Module Processed.
Record t := mk { original_text : string; text : string; tokens : list Token.t }.

(** [Processed.__init__] *)
Definition init (process : string -> string) (tokenize : string -> list Token.t)
    (text : string) : qa_result t :=
  let processed := process text in
  let tokens := tokenize processed in
  if decide (0 < String.length processed) then
    if decide (0 < length tokens) then QOk (mk text processed tokens)
    else QErr AssertionError
  else QErr AssertionError.
End Processed.

Module Answer.
Record t := mk { base : Processed.t; span_start : Z; span_end : Z }.

(** [Answer.__init__]: [span_end = span_start + len(self.text)], the
    processed text. *)
Definition init (text : string) (span_start : Z) (process : string -> string)
    (tokenize : string -> list Token.t) : qa_result t :=
  p ← Processed.init process tokenize text;
  QOk (mk p span_start (span_start + Z.of_nat (String.length (Processed.text p)))).
End Answer.

Module QuestionAnswer.
Record t := mk { question_id : string; answers : list Answer.t; base : Processed.t }.

Definition init (question_id : string) (text : string) (answers : list Answer.t)
    (process : string -> string) (tokenize : string -> list Token.t) : qa_result t :=
  p ← Processed.init process tokenize text;
  QOk (mk question_id answers p).
End QuestionAnswer.

Module ContextQuestionAnswer.
Record t := mk { qas : list QuestionAnswer.t; base : Processed.t }.

Definition init (text : string) (qas : list QuestionAnswer.t)
    (process : string -> string) (tokenize : string -> list Token.t) : qa_result t :=
  p ← Processed.init process tokenize text;
  QOk (mk qas p).
End ContextQuestionAnswer.

Module EncodedAnswer.
Record t := mk { span_start : Z; span_end : Z }.

(** [EncodedAnswer.__init__] *)
Definition init (answer : Answer.t) (context_tokens : list Token.t) : qa_result t :=
  let spans := Token.span <$> context_tokens in
  match spans with
  | [] => QErr UnpackError
  | _ =>
      let token_starts := fst <$> spans in
      let token_ends := snd <$> spans in
      QOk (mk (Z.of_nat (bisect_right token_starts (Answer.span_start answer)) - 1)
              (Z.of_nat (bisect_left token_ends (Answer.span_end answer))))
  end.
End EncodedAnswer.

(** [[token_mapping.get(tk.word, 1) for tk in tokens]] *)
Definition encode_words (token_mapping : gmap string Z) (tokens : list Token.t) : list Z :=
  (fun tk => dict_get token_mapping (Token.word tk) 1%Z) <$> tokens.

(** [[np.array([char_mapping.get(char, 1) for char in tk.word]) for tk in tokens]] *)
Definition encode_chars (char_mapping : gmap string Z) (tokens : list Token.t) : list (list Z) :=
  (fun tk => (fun c => dict_get char_mapping (String c EmptyString) 1%Z)
               <$> String.list_ascii_of_string (Token.word tk)) <$> tokens.

Module EncodedQuestionAnswer.
Record t := mk {
  question_id : string;
  word_encoding : list Z;
  char_encoding : list (list Z);
  answers : list EncodedAnswer.t
}.

(** [EncodedQuestionAnswer.__init__] *)
Definition init (qa : QuestionAnswer.t) (token_mapping char_mapping : gmap string Z)
    (context_tokens : list Token.t) : qa_result t :=
  let tokens := Processed.tokens (QuestionAnswer.base qa) in
  let word_encoding := encode_words token_mapping tokens in
  let char_encoding := encode_chars char_mapping tokens in
  answers ← qa_map (fun ans => EncodedAnswer.init ans context_tokens) (QuestionAnswer.answers qa);
  QOk (mk (QuestionAnswer.question_id qa) word_encoding char_encoding answers).
End EncodedQuestionAnswer.

Module EncodedContextQuestionAnswer.
Record t := mk {
  word_encoding : list Z;
  char_encoding : list (list Z);
  qas : list EncodedQuestionAnswer.t
}.

(** [EncodedContextQuestionAnswer.__init__] *)
Definition init (ctx : ContextQuestionAnswer.t) (token_mapping char_mapping : gmap string Z)
    : qa_result t :=
  let tokens := Processed.tokens (ContextQuestionAnswer.base ctx) in
  let word_encoding := encode_words token_mapping tokens in
  let char_encoding := encode_chars char_mapping tokens in
  qas ← qa_map (fun qa => EncodedQuestionAnswer.init qa token_mapping char_mapping tokens)
           (ContextQuestionAnswer.qas ctx);
  QOk (mk word_encoding char_encoding qas).
End EncodedContextQuestionAnswer.

(** A numpy index into an axis of length [n]: negative indices count from
    the end, anything outside [[-n, n)] raises. *)
Definition np_index (n : nat) (k : Z) : qa_result nat :=
  if decide (0 <= k < Z.of_nat n)%Z then QOk (Z.to_nat k)
  else if decide (- Z.of_nat n <= k < 0)%Z then QOk (Z.to_nat (Z.of_nat n + k))
  else QErr NumpyIndexError.

(** [v[idxs] = 1] for an integer index array [idxs]. *)
Definition set_ones (v : list Z) (idxs : list Z) : qa_result (list Z) :=
  ks ← qa_map (np_index (length v)) idxs;
  QOk (foldl (fun v k => <[k := 1%Z]> v) v ks).

(** [EncodedSample.__init__]; the object's [has_answer] is returned beside
    the sample. *)
Definition EncodedSample_init (ctx_word_encoding : list Z) (ctx_char_encoding : list (list Z))
    (qa : EncodedQuestionAnswer.t) : qa_result (EncodedSample * bool) :=
  let has_answer := bool_decide (EncodedQuestionAnswer.answers qa <> []) in
  let zeros := replicate (length ctx_word_encoding) 0%Z in
  let sample := mk_sample (EncodedQuestionAnswer.question_id qa)
                  (EncodedQuestionAnswer.word_encoding qa)
                  (EncodedQuestionAnswer.char_encoding qa)
                  ctx_word_encoding ctx_char_encoding in
  if has_answer then
    let starts := EncodedAnswer.span_start <$> EncodedQuestionAnswer.answers qa in
    let ends := EncodedAnswer.span_end <$> EncodedQuestionAnswer.answers qa in
    span_starts ← set_ones zeros starts;
    span_ends ← set_ones zeros ends;
    QOk (sample span_starts span_ends, has_answer)
  else QOk (sample zeros zeros, has_answer).

(** Examples for the encoders: a tokenizer that makes one token of the
    whole text, and three context tokens with their character offsets. *)
Definition example_tokenize (text : string) : list Token.t :=
  [Token.mk text (0, Z.of_nat (String.length text))%Z].

Definition example_context_tokens : list Token.t :=
  [Token.mk "the" (0, 3)%Z; Token.mk "red" (4, 7)%Z; Token.mk "fox" (8, 11)%Z].

Definition example_token_mapping : gmap string Z :=
  <["the" := 2%Z]> (<["red" := 3%Z]> (<["fox" := 4%Z]> ∅)).

Definition example_char_mapping : gmap string Z :=
  <["r" := 2%Z]> (<["e" := 3%Z]> (<["d" := 4%Z]> ∅)).

(** Answers against the context "the red fox": "red fox" at offset 4, an
    answer that starts before the context and one that ends after it. *)
Definition example_answer : Answer.t :=
  Answer.mk (Processed.mk "red fox" "red fox" (example_tokenize "red fox")) 4 11.

Definition example_early_answer : Answer.t :=
  Answer.mk (Processed.mk "a" "a" (example_tokenize "a")) (-2) (-1).

Definition example_late_answer : Answer.t :=
  Answer.mk (Processed.mk "fox ran" "fox ran" (example_tokenize "fox ran")) 8 15.

Definition example_qa : QuestionAnswer.t :=
  QuestionAnswer.mk "q1" [example_answer; example_early_answer]
    (Processed.mk "red" "red" (example_tokenize "red")).

Definition example_late_qa : QuestionAnswer.t :=
  QuestionAnswer.mk "q2" [example_late_answer]
    (Processed.mk "fox" "fox" (example_tokenize "fox")).

(** * Proofs *)

(** ** The insertion sorts meet the torch.sort contract *)

Section insertion_sort.
Variables (keys : list nat) (descending ties_first : bool).

Lemma goes_before_true kj ki :
  goes_before descending ties_first kj ki = true -> sort_rel descending kj ki.
Proof.
  unfold goes_before, sort_rel.
  destruct descending, ties_first; rewrite ?Nat.ltb_lt, ?Nat.leb_le; lia.
Qed.

Lemma goes_before_false kj ki :
  goes_before descending ties_first kj ki = false -> sort_rel descending ki kj.
Proof.
  unfold goes_before, sort_rel.
  destruct descending, ties_first; rewrite ?Nat.ltb_ge, ?Nat.leb_gt; lia.
Qed.

Lemma insert_idx_perm i l : insert_idx keys descending ties_first i l ≡ₚ i :: l.
Proof.
  induction l as [|j l IH]; simpl; [done|].
  case_match; [|done].
  rewrite IH. by constructor.
Qed.

Lemma insert_idx_sorted i l :
  Sorted (sort_rel descending) ((fun k => keys !!! k) <$> l) ->
  Sorted (sort_rel descending)
    ((fun k => keys !!! k) <$> insert_idx keys descending ties_first i l).
Proof.
  induction l as [|j l IH]; intros Hs; simpl.
  - by repeat constructor.
  - destruct (goes_before _ _ (keys !!! j) (keys !!! i)) eqn:E; simpl in Hs.
    + apply Sorted_inv in Hs as [Hs Hhd].
      constructor; [by apply IH|].
      destruct l as [|j' l]; simpl.
      * constructor. by apply goes_before_true.
      * destruct (goes_before _ _ (keys !!! j') (keys !!! i)); simpl.
        -- inversion Hhd. by constructor.
        -- constructor. by apply goes_before_true.
    + constructor; [done|].
      constructor. by apply goes_before_false.
Qed.

Lemma foldl_insert_perm acc xs :
  foldl (fun acc i => insert_idx keys descending ties_first i acc) acc xs ≡ₚ xs ++ acc.
Proof.
  revert acc; induction xs as [|x xs IH]; intros acc; simpl; [done|].
  rewrite IH, insert_idx_perm. by rewrite Permutation_middle.
Qed.

Lemma foldl_insert_sorted acc xs :
  Sorted (sort_rel descending) ((fun k => keys !!! k) <$> acc) ->
  Sorted (sort_rel descending)
    ((fun k => keys !!! k) <$>
       foldl (fun acc i => insert_idx keys descending ties_first i acc) acc xs).
Proof.
  revert acc; induction xs as [|x xs IH]; intros acc Hs; simpl; [done|].
  by apply IH, insert_idx_sorted.
Qed.

End insertion_sort.

Lemma insertion_argsort_contract ties_first :
  argsort_contract (insertion_argsort ties_first).
Proof.
  intros descending keys. split.
  - unfold insertion_argsort. by rewrite foldl_insert_perm, app_nil_r.
  - apply foldl_insert_sorted. constructor.
Qed.

(** ** Index permutations *)

Lemma Sorted_le_seq s n : Sorted le (seq s n).
Proof.
  revert s; induction n as [|n IH]; intros s; simpl; [constructor|].
  constructor; [apply IH|]. destruct n; simpl; constructor; lia.
Qed.

Lemma fmap_lookup_total_seq {A} `{!Inhabited A} (l : list A) :
  (fun i => l !!! i) <$> seq 0 (length l) = l.
Proof.
  apply list_eq; intros i. rewrite list_lookup_fmap.
  destruct (decide (i < length l)).
  - rewrite lookup_seq_lt; [|done]. simpl. by rewrite (list_lookup_lookup_total_lt l i).
  - rewrite lookup_seq_ge; [|lia]. symmetry. apply lookup_ge_None_2. lia.
Qed.

Lemma perm_seq_lt (p : list nat) n k : p ≡ₚ seq 0 n -> k ∈ p -> k < n.
Proof. intros Hp Hk. rewrite Hp, elem_of_seq in Hk. lia. Qed.

Lemma perm_seq_lookup_lt (p : list nat) n j :
  p ≡ₚ seq 0 n -> j < n -> p !!! j < n.
Proof.
  intros Hp Hj. apply (perm_seq_lt p n); [done|].
  apply Permutation_length in Hp as Hl. rewrite length_seq in Hl.
  apply list_elem_of_lookup_2 with j. apply list_lookup_lookup_total_lt. lia.
Qed.

(** The second sort of [pad_and_sort] ([_, orig_idxs = length_idxs.sort()])
    inverts the first: [length_idxs[orig_idxs[j]] = j]. *)
Lemma argsort_asc_inverse (p q : list nat) n :
  p ≡ₚ seq 0 n ->
  q ≡ₚ seq 0 (length p) ->
  Sorted (sort_rel false) ((fun i => p !!! i) <$> q) ->
  forall j, j < n -> p !!! (q !!! j) = j.
Proof.
  intros Hp Hq Hs j Hj.
  assert (Hlp : length p = n) by (rewrite Hp, length_seq; done).
  assert (Heq : (fun i => p !!! i) <$> q = seq 0 n).
  { assert (Hs' : Sorted le ((fun i => p !!! i) <$> q)) by exact Hs.
    refine (Sorted_unique le (Transitive0 := Nat.le_trans) (AntiSymm0 := Nat.le_antisymm)
              _ _ Hs' (Sorted_le_seq 0 n) _).
    rewrite Hq, fmap_lookup_total_seq. done. }
  assert (Hlq : length q = n) by (rewrite Hq, length_seq; done).
  pose proof (f_equal (fun l => l !! j) Heq) as Hj'. simpl in Hj'.
  rewrite list_lookup_fmap, (list_lookup_lookup_total_lt q j) in Hj'; [|lia].
  rewrite lookup_seq_lt in Hj'; [|done]. simpl in Hj'. congruence.
Qed.

Lemma argsort_asc_inverse' (p q : list nat) n :
  p ≡ₚ seq 0 n ->
  q ≡ₚ seq 0 (length p) ->
  Sorted (sort_rel false) ((fun i => p !!! i) <$> q) ->
  forall k, k < n -> q !!! (p !!! k) = k.
Proof.
  intros Hp Hq Hs k Hk.
  assert (Hlp : length p = n) by (rewrite Hp, length_seq; done).
  pose proof (perm_seq_lookup_lt p n k Hp Hk) as Hpk.
  pose proof (argsort_asc_inverse p q n Hp Hq Hs _ Hpk) as Hinv.
  assert (Hqk : q !!! (p !!! k) < n).
  { apply (perm_seq_lookup_lt q n); [by rewrite Hq, Hlp|done]. }
  assert (Hnd : NoDup p) by (rewrite Hp; apply NoDup_seq).
  eapply (NoDup_lookup p); [done| |].
  - apply list_lookup_lookup_total_lt. lia.
  - rewrite Hinv. apply list_lookup_lookup_total_lt. lia.
Qed.

Lemma gather_rows_ok {A} `{!Inhabited A} (m : list A) (ix : list nat) :
  Forall (fun i => i < length m) ix ->
  gather_rows m ix = Ok ((fun i => m !!! i) <$> ix).
Proof.
  induction ix as [|i ix IH]; intros Hix; simpl; [done|].
  apply Forall_cons in Hix as [Hi Hix].
  rewrite (list_lookup_lookup_total_lt m i Hi), IH by done. done.
Qed.

Lemma perm_seq_Forall_lt (p : list nat) n m :
  p ≡ₚ seq 0 n -> n <= m -> Forall (fun i => i < m) p.
Proof.
  intros Hp Hn. apply Forall_forall. intros k Hk.
  pose proof (perm_seq_lt p n k Hp Hk). lia.
Qed.

Lemma truncate_length cap (sequences : list (list Z)) :
  length (truncate cap sequences) = length sequences.
Proof. unfold truncate. case_decide; [apply length_fmap|done]. Qed.

Lemma permuted_rows {A} `{!Inhabited A} (s : list A) (p : list nat) :
  p ≡ₚ seq 0 (length s) -> (fun i => s !!! i) <$> p ≡ₚ s.
Proof. intros Hp. rewrite Hp. apply reflexive_eq, fmap_lookup_total_seq. Qed.

(** [pad_and_sort] on two or more sequences, with the sort indices named. *)
Lemma pad_and_sort_general (argsort : bool -> list nat -> list nat)
    (sequences : list (list Z)) (cap : nat) :
  argsort_contract argsort ->
  2 <= length sequences ->
  pad_and_sort argsort sequences cap =
    Ok (pad_to (max_list_with length (truncate cap sequences)) <$>
          ((fun i => truncate cap sequences !!! i) <$>
             argsort true (length <$> truncate cap sequences)),
        mk_idx Long (argsort false (argsort true (length <$> truncate cap sequences))),
        mk_idx Long (argsort true (length <$> truncate cap sequences)),
        (fun i => (length <$> truncate cap sequences) !!! i) <$>
          argsort true (length <$> truncate cap sequences)).
Proof.
  intros Hsort HN. unfold pad_and_sort.
  rewrite decide_False by lia.
  set (s := truncate cap sequences).
  set (p := argsort true (length <$> s)).
  assert (Hp : p ≡ₚ seq 0 (length s)).
  { destruct (Hsort true (length <$> s)) as [Hp _]. by rewrite length_fmap in Hp. }
  assert (Hls : length s = length sequences) by apply truncate_length.
  assert (Hlp : length p = length sequences)
    by (rewrite Hp, length_seq; done).
  assert (Hmax : max_list_with length ((fun i => s !!! i) <$> p) = max_list_with length s).
  { apply max_list_with_Permutation_proper, permuted_rows. done. }
  destruct ((fun i => s !!! i) <$> p) as [|r rs] eqn:Hrows.
  { apply (f_equal length) in Hrows. rewrite length_fmap in Hrows. simpl in Hrows. lia. }
  cbn [pad_sequence mbind result_bind].
  rewrite Hmax. done.
Qed.

Lemma list_eq_total {A} `{!Inhabited A} (l1 l2 : list A) :
  length l1 = length l2 ->
  (forall i, i < length l1 -> l1 !!! i = l2 !!! i) -> l1 = l2.
Proof.
  intros Hl Hi. apply (list_eq_same_length l1 l2 (length l1)); [done|done|].
  intros i x y Hlt Hx Hy.
  apply list_lookup_total_correct in Hx, Hy. subst. by apply Hi.
Qed.

(** The index maps of [pad_and_sort] on two or more sequences. *)
Lemma pad_and_sort_reorder (argsort : bool -> list nat -> list nat)
    (sequences : list (list Z)) (max_sequence_size : nat) :
  argsort_contract argsort ->
  2 <= length sequences ->
  exists batch orig_idxs length_idxs lengths,
    pad_and_sort argsort sequences max_sequence_size =
      Ok (batch, mk_idx Long orig_idxs, mk_idx Long length_idxs, lengths) /\
    orig_idxs ≡ₚ seq 0 (length sequences) /\
    length_idxs ≡ₚ seq 0 (length sequences) /\
    (forall j, j < length sequences ->
       length_idxs !!! (orig_idxs !!! j) = j /\ orig_idxs !!! (length_idxs !!! j) = j) /\
    index_rows batch (mk_idx Long orig_idxs) = Ok (padded_input sequences max_sequence_size) /\
    index_rows (padded_input sequences max_sequence_size) (mk_idx Long length_idxs) = Ok batch.
Proof.
  intros Hsort HN.
  rewrite (pad_and_sort_general argsort sequences max_sequence_size Hsort HN).
  do 4 eexists. split; [reflexivity|].
  set (s := truncate max_sequence_size sequences).
  set (p := argsort true (length <$> s)).
  set (q := argsort false p).
  set (W := max_list_with length s).
  set (N := length sequences).
  assert (Hls : length s = N) by apply truncate_length.
  destruct (Hsort true (length <$> s)) as [Hp _]. fold p in Hp.
  rewrite length_fmap, Hls in Hp.
  destruct (Hsort false p) as [Hq Hqs]. fold q in Hq, Hqs.
  assert (Hlp : length p = N) by (rewrite Hp, length_seq; done).
  assert (Hlq : length q = N) by (rewrite Hq, length_seq; done).
  rewrite Hlp in Hq.
  pose proof (argsort_asc_inverse p q N Hp ltac:(by rewrite Hlp) Hqs) as Hpq.
  pose proof (argsort_asc_inverse' p q N Hp ltac:(by rewrite Hlp) Hqs) as Hqp.
  assert (Hbatch : forall k, k < N ->
    (pad_to W <$> ((fun i => s !!! i) <$> p)) !!! k = pad_to W (s !!! (p !!! k))).
  { intros k Hk. rewrite (list_lookup_total_fmap (pad_to W)) by (rewrite length_fmap; lia).
    rewrite (list_lookup_total_fmap (fun i => s !!! i)) by lia. done. }
  assert (Hin : forall k, k < N -> padded_input sequences max_sequence_size !!! k = pad_to W (s !!! k)).
  { intros k Hk. unfold padded_input. fold s. fold W.
    rewrite (list_lookup_total_fmap (pad_to W)) by lia. done. }
  assert (Hlin : length (padded_input sequences max_sequence_size) = N).
  { unfold padded_input. rewrite length_fmap. done. }
  split; [done|]. split; [done|]. split; [intros j Hj; split; auto|].
  split.
  - unfold index_rows; simpl.
    rewrite gather_rows_ok.
    2:{ apply (perm_seq_Forall_lt q N). done. rewrite !length_fmap. lia. }
    f_equal. apply list_eq_total.
    { rewrite length_fmap. lia. }
    intros j Hj. rewrite length_fmap in Hj.
    rewrite (list_lookup_total_fmap
               (fun i => (pad_to W <$> ((fun i => s !!! i) <$> p)) !!! i)) by done.
    rewrite Hbatch by (apply perm_seq_lookup_lt; lia || done).
    rewrite Hpq by lia. rewrite Hin by lia. done.
  - unfold index_rows; simpl.
    rewrite gather_rows_ok.
    2:{ apply (perm_seq_Forall_lt p N). done. lia. }
    f_equal. apply list_eq_total.
    { rewrite !length_fmap. lia. }
    intros k Hk. rewrite length_fmap in Hk.
    rewrite (list_lookup_total_fmap
               (fun i => padded_input sequences max_sequence_size !!! i)) by done.
    rewrite Hin by (apply perm_seq_lookup_lt; lia || done).
    rewrite Hbatch by lia. done.
Qed.

Lemma max_list_with_ub {A} (f : A -> nat) (l : list A) x :
  x ∈ l -> f x <= max_list_with f l.
Proof.
  induction 1 as [|y z l Hin IH]; rewrite max_list_with_foldr in *; simpl; lia.
Qed.

Lemma max_list_fmap {A} (f : A -> nat) (l : list A) :
  max_list (f <$> l) = max_list_with f l.
Proof.
  induction l as [|x l IH]; [done|].
  change (f x `max` max_list (f <$> l) = f x `max` max_list_with f l).
  by rewrite IH.
Qed.

Lemma max_list_with_length_eq (xs ys : list (list Z)) :
  length <$> xs = length <$> ys -> max_list_with length xs = max_list_with length ys.
Proof. intros H. by rewrite <- (max_list_fmap length xs), <- (max_list_fmap length ys), H. Qed.

Lemma length_pad_to n (l : list Z) : length l <= n -> length (pad_to n l) = n.
Proof. intros H. unfold pad_to. rewrite length_app, length_replicate. lia. Qed.

(** Every row of [padded_input] has the padded width. *)
Lemma padded_input_shape (sequences : list (list Z)) cap :
  length (padded_input sequences cap) = length sequences /\
  Forall (fun row => length row = max_list_with length (truncate cap sequences))
    (padded_input sequences cap).
Proof.
  unfold padded_input. split.
  - rewrite length_fmap. apply truncate_length.
  - apply Forall_fmap, Forall_forall. intros l Hl. simpl.
    apply length_pad_to. by apply (max_list_with_ub length).
Qed.

Lemma StronglySorted_lookup {A} (R : A -> A -> Prop) (l : list A) i j x y :
  StronglySorted R l -> l !! i = Some x -> l !! j = Some y -> i < j -> R x y.
Proof.
  intros Hs. revert i j. induction Hs as [|z l Hs IH Hall]; intros i j Hi Hj Hij; [done|].
  destruct i as [|i], j as [|j]; simpl in *; try lia.
  - injection Hi as <-. rewrite Forall_forall in Hall.
    apply Hall. by apply list_elem_of_lookup_2 with j.
  - apply (IH i j); auto; lia.
Qed.

(** ** C1 *)

(** C1: on N >= 2 sequences, [pad_and_sort] returns two long index tensors
    that are mutually inverse permutations of [0 .. N-1]; indexing the
    length-sorted batch with [orig_idxs] (the sorted-to-original map) gives
    the capped, padded inputs in their original order, and indexing those
    with [length_idxs] (the original-to-sorted map) gives the sorted batch. *)
Theorem pad_and_sort_index_maps_inverse (argsort : bool -> list nat -> list nat)
    (sequences : list (list Z)) (max_sequence_size : nat) :
  argsort_contract argsort ->
  2 <= length sequences ->
  exists batch orig_idxs length_idxs lengths,
    pad_and_sort argsort sequences max_sequence_size =
      Ok (batch, mk_idx Long orig_idxs, mk_idx Long length_idxs, lengths) /\
    orig_idxs ≡ₚ seq 0 (length sequences) /\
    length_idxs ≡ₚ seq 0 (length sequences) /\
    (forall j, j < length sequences ->
       length_idxs !!! (orig_idxs !!! j) = j /\ orig_idxs !!! (length_idxs !!! j) = j) /\
    index_rows batch (mk_idx Long orig_idxs) = Ok (padded_input sequences max_sequence_size) /\
    index_rows (padded_input sequences max_sequence_size) (mk_idx Long length_idxs) = Ok batch.
Proof. apply pad_and_sort_reorder. Qed.

Lemma pad_and_sort_index_maps_inverse_witness :
  argsort_contract (insertion_argsort false) /\
  2 <= length ([[1;2]; [5;6;7]]%Z : list (list Z)) /\
  exists batch orig_idxs length_idxs lengths,
    pad_and_sort (insertion_argsort false) [[1;2]; [5;6;7]]%Z 0 =
      Ok (batch, mk_idx Long orig_idxs, mk_idx Long length_idxs, lengths) /\
    orig_idxs ≡ₚ seq 0 2 /\
    length_idxs ≡ₚ seq 0 2 /\
    (forall j, j < 2 ->
       length_idxs !!! (orig_idxs !!! j) = j /\ orig_idxs !!! (length_idxs !!! j) = j) /\
    index_rows batch (mk_idx Long orig_idxs) = Ok (padded_input [[1;2]; [5;6;7]]%Z 0) /\
    index_rows (padded_input [[1;2]; [5;6;7]]%Z 0) (mk_idx Long length_idxs) = Ok batch.
Proof.
  split; [apply insertion_argsort_contract|].
  split; [simpl; lia|].
  apply (pad_and_sort_index_maps_inverse (insertion_argsort false) [[1;2]; [5;6;7]]%Z 0).
  - apply insertion_argsort_contract.
  - simpl; lia.
Defined.

(** ** C3 *)

(** C3 (code_bug): the single-sequence path of [pad_and_sort] returns before
    the cap is applied: on [[1;2;3;4]] with cap 2 the batch is the whole
    sequence and the length is 4, whatever the sort. *)
Theorem pad_and_sort_single_ignores_cap (argsort : bool -> list nat -> list nat) :
  pad_and_sort argsort [[1;2;3;4]]%Z 2 =
    Ok ([[1;2;3;4]]%Z, mk_idx Float [0], mk_idx Float [0], [4]).
Proof. reflexivity. Qed.

(** ** C4 *)

(** C4 refuted: the contract of [torch.sort] (default [stable=False]) admits
    a sort that puts the later of two equal-length sequences first; with
    it, [pad_and_sort] on [[1]; [2]] lists index 1 before index 0. *)
Lemma pad_and_sort_ties_cex :
  ~ (forall argsort, argsort_contract argsort ->
     forall (sequences : list (list Z)) cap, 2 <= length sequences ->
     forall batch orig_idxs length_idxs lengths,
       pad_and_sort argsort sequences cap =
         Ok (batch, orig_idxs, mk_idx Long length_idxs, lengths) ->
       forall a b, a < b < length sequences ->
         length (truncate cap sequences !!! (length_idxs !!! a)) =
           length (truncate cap sequences !!! (length_idxs !!! b)) ->
         length_idxs !!! a < length_idxs !!! b).
Proof.
  intros H.
  specialize (H (insertion_argsort true) (insertion_argsort_contract true)
                [[1]; [2]]%Z 0 ltac:(simpl; lia)
                [[2]; [1]]%Z (mk_idx Long [1; 0]) [1; 0] [1; 1] eq_refl
                0 1 ltac:(simpl; lia) eq_refl).
  simpl in H. lia.
Qed.

(** C4 as amended: on N >= 2 sequences the sort indices are a permutation
    of [0 .. N-1] listing the sequences by non-increasing length after the
    cap; equal lengths are left in the order the sort returns. *)
Theorem pad_and_sort_order_by_length (argsort : bool -> list nat -> list nat)
    (sequences : list (list Z)) (cap : nat) :
  argsort_contract argsort ->
  2 <= length sequences ->
  exists batch orig_idxs length_idxs lengths,
    pad_and_sort argsort sequences cap =
      Ok (batch, orig_idxs, mk_idx Long length_idxs, lengths) /\
    length_idxs ≡ₚ seq 0 (length sequences) /\
    forall a b, a < b < length sequences ->
      length (truncate cap sequences !!! (length_idxs !!! b)) <=
        length (truncate cap sequences !!! (length_idxs !!! a)).
Proof.
  intros Hsort HN.
  rewrite (pad_and_sort_general argsort sequences cap Hsort HN).
  do 4 eexists. split; [reflexivity|].
  set (s := truncate cap sequences).
  set (p := argsort true (length <$> s)).
  assert (Hls : length s = length sequences) by apply truncate_length.
  destruct (Hsort true (length <$> s)) as [Hp Hps]. fold p in Hp, Hps.
  rewrite length_fmap, Hls in Hp.
  assert (Hlp : length p = length sequences) by (rewrite Hp, length_seq; done).
  split; [done|].
  intros a b Hab.
  apply (Sorted_StronglySorted (sort_rel true)
           (Transitive0 := fun x y z => ltac:(unfold sort_rel; lia))) in Hps.
  assert (Hk : forall k, k < length sequences ->
            ((fun i => (length <$> s) !!! i) <$> p) !! k = Some (length (s !!! (p !!! k)))).
  { intros k Hk. rewrite list_lookup_fmap, (list_lookup_lookup_total_lt p k) by lia. simpl.
    f_equal. apply list_lookup_total_fmap.
    pose proof (perm_seq_lookup_lt p (length sequences) k Hp Hk). lia. }
  exact (StronglySorted_lookup _ _ a b _ _ Hps (Hk a ltac:(lia)) (Hk b ltac:(lia)) ltac:(lia)).
Qed.

Lemma pad_and_sort_order_by_length_witness :
  argsort_contract (insertion_argsort false) /\
  2 <= length ([[1;2]; [5;6;7]]%Z : list (list Z)) /\
  exists batch orig_idxs length_idxs lengths,
    pad_and_sort (insertion_argsort false) [[1;2]; [5;6;7]]%Z 0 =
      Ok (batch, orig_idxs, mk_idx Long length_idxs, lengths) /\
    length_idxs ≡ₚ seq 0 2 /\
    forall a b, a < b < 2 ->
      length (truncate 0 [[1;2]; [5;6;7]]%Z !!! (length_idxs !!! b)) <=
        length (truncate 0 [[1;2]; [5;6;7]]%Z !!! (length_idxs !!! a)).
Proof.
  split; [apply insertion_argsort_contract|].
  split; [simpl; lia|].
  apply (pad_and_sort_order_by_length (insertion_argsort false) [[1;2]; [5;6;7]]%Z 0).
  - apply insertion_argsort_contract.
  - simpl; lia.
Defined.

(** ** C5 *)

(** C5 refuted: with a cap the returned lengths are the capped ones; on
    [[1;2;3]; [1]] with cap 2 they are [2; 1], not a permutation of the
    input lengths [3; 1]. *)
Lemma pad_and_sort_lengths_cap_cex :
  pad_and_sort (insertion_argsort false) [[1;2;3]; [1]]%Z 2 =
    Ok ([[1;2]; [1;0]]%Z, mk_idx Long [0; 1], mk_idx Long [0; 1], [2; 1]) /\
  ~ ([2; 1] ≡ₚ length <$> ([[1;2;3]; [1]]%Z : list (list Z))).
Proof.
  split; [reflexivity|].
  simpl. intros H. apply Permutation_sym in H.
  apply (Permutation_in 3) in H; [|simpl; auto].
  simpl in H. lia.
Qed.

(** C5 as amended: on N >= 2 sequences the returned lengths are
    non-increasing and a permutation of the input lengths after the cap
    ([min cap (length l)] when [cap > 0], [length l] when [cap = 0]). *)
Theorem pad_and_sort_lengths_sorted_perm (argsort : bool -> list nat -> list nat)
    (sequences : list (list Z)) (cap : nat) :
  argsort_contract argsort ->
  2 <= length sequences ->
  exists batch orig_idxs length_idxs lengths,
    pad_and_sort argsort sequences cap = Ok (batch, orig_idxs, length_idxs, lengths) /\
    Sorted (fun a b => b <= a) lengths /\
    lengths ≡ₚ (fun l : list Z => if decide (0 < cap) then Nat.min cap (length l) else length l)
                 <$> sequences.
Proof.
  intros Hsort HN.
  rewrite (pad_and_sort_general argsort sequences cap Hsort HN).
  do 4 eexists. split; [reflexivity|].
  set (s := truncate cap sequences).
  destruct (Hsort true (length <$> s)) as [Hp Hps].
  split; [exact Hps|].
  rewrite (permuted_rows (length <$> s)) by done.
  unfold s, truncate. case_decide.
  - rewrite <- list_fmap_compose. apply reflexive_eq, list_fmap_ext.
    intros i l _. apply length_take.
  - done.
Qed.

Lemma pad_and_sort_lengths_sorted_perm_witness :
  argsort_contract (insertion_argsort false) /\
  2 <= length ([[1;2;3]; [1]]%Z : list (list Z)) /\
  exists batch orig_idxs length_idxs lengths,
    pad_and_sort (insertion_argsort false) [[1;2;3]; [1]]%Z 2 =
      Ok (batch, orig_idxs, length_idxs, lengths) /\
    Sorted (fun a b => b <= a) lengths /\
    lengths ≡ₚ (fun l : list Z => if decide (0 < 2) then Nat.min 2 (length l) else length l)
                 <$> [[1;2;3]; [1]]%Z.
Proof.
  split; [apply insertion_argsort_contract|].
  split; [simpl; lia|].
  apply (pad_and_sort_lengths_sorted_perm (insertion_argsort false) [[1;2;3]; [1]]%Z 2).
  - apply insertion_argsort_contract.
  - simpl; lia.
Defined.

(** ** C7 *)

(** C7 refuted: the code has no [EmptyBatchError]; on zero samples the
    collecting loop does nothing and [pad_and_sort] hands an empty list to
    [pad_sequence], which raises its own error. *)
Lemma collate_batch_empty_cex :
  collate_batch (insertion_argsort false) [] 0 0 = Err EmptySequenceList.
Proof. reflexivity. Qed.

(** C7 as amended: on zero samples [collate_batch] raises, for any caps,
    the error of [pad_sequence] on an empty list, and returns no batch. *)
Theorem collate_batch_empty_raises (argsort : bool -> list nat -> list nat)
    (max_question_size max_context_size : nat) :
  argsort_contract argsort ->
  collate_batch argsort [] max_question_size max_context_size = Err EmptySequenceList.
Proof.
  intros Hsort.
  destruct (Hsort true []) as [Hp _]. simpl in Hp.
  apply Permutation_sym, Permutation_nil in Hp.
  assert (Htr : truncate max_question_size [] = []) by (unfold truncate; case_decide; done).
  unfold collate_batch, pad_and_sort. cbn -[truncate]. rewrite Htr. cbn. rewrite Hp. reflexivity.
Qed.

Lemma collate_batch_empty_raises_witness :
  argsort_contract (insertion_argsort true) /\
  collate_batch (insertion_argsort true) [] 3 5 = Err EmptySequenceList.
Proof.
  split; [apply insertion_argsort_contract|].
  apply collate_batch_empty_raises. apply insertion_argsort_contract.
Defined.

(** ** C8 *)

(** C8: [mask_sequence] keeps the shape of its input and has 1 where the
    input differs from the pad value 0 and 0 where it equals 0. *)
Theorem mask_sequence_entries (input_batch : list (list Z)) :
  length <$> mask_sequence input_batch = length <$> input_batch /\
  forall i k x,
    input_batch !! i ≫= (fun row => row !! k) = Some x ->
    (x <> 0%Z -> mask_sequence input_batch !! i ≫= (fun row => row !! k) = Some 1%Z) /\
    (x = 0%Z -> mask_sequence input_batch !! i ≫= (fun row => row !! k) = Some 0%Z).
Proof.
  unfold mask_sequence. split.
  - rewrite <- list_fmap_compose. apply list_fmap_ext. intros i row _. apply length_fmap.
  - intros i k x Hx.
    rewrite list_lookup_fmap.
    destruct (input_batch !! i) as [row|]; simpl in *; [|done].
    rewrite list_lookup_fmap, Hx. simpl.
    split; intros; case_decide; congruence.
Qed.

(** ** C9 *)

(** C9: [QABatch.to] leaves [question_ids] as they are, and [__len__] is the
    number of question ids before and after the transfer. *)
Theorem qabatch_to_keeps_ids_and_len (device : device) (batch : QABatch.t) :
  QABatch.question_ids (QABatch.to device batch) = QABatch.question_ids batch /\
  QABatch.len batch = length (QABatch.question_ids batch) /\
  QABatch.len (QABatch.to device batch) = length (QABatch.question_ids batch).
Proof. repeat split. Qed.

(** ** Running collate_batch backwards *)

Lemma bind_Ok {A B} (m : result A) (f : A -> result B) (b : B) :
  (m ≫= f) = Ok b -> exists a, m = Ok a /\ f a = Ok b.
Proof. destruct m; simpl; [eauto|discriminate]. Qed.

Ltac split_pairs a :=
  lazymatch type of a with
  | (_ * _)%type => let x := fresh "x" in destruct a as [a x]; split_pairs a
  | _ => idtac
  end.

Ltac inv_binds H :=
  repeat lazymatch type of H with
  | mbind _ _ = Ok _ =>
      let a := fresh "a" in let Ha := fresh "Ha" in
      apply bind_Ok in H as [a [Ha H]]; split_pairs a; cbn beta iota zeta in H
  end.

Lemma pad_and_sort_nil (argsort : bool -> list nat -> list nat) cap :
  argsort_contract argsort -> pad_and_sort argsort [] cap = Err EmptySequenceList.
Proof.
  intros Hsort.
  destruct (Hsort true []) as [Hp _]. simpl in Hp.
  apply Permutation_sym, Permutation_nil in Hp.
  assert (Htr : truncate cap [] = []) by (unfold truncate; case_decide; done).
  unfold pad_and_sort. rewrite Htr. cbn. rewrite Hp. reflexivity.
Qed.

(** Indexing with the returned [orig_idxs] succeeds only on two or more
    sequences: one sequence gets a float index tensor, none an error. *)
Lemma pad_and_sort_indexable (argsort : bool -> list nat -> list nat)
    (xs : list (list Z)) cap batch orig_idxs length_idxs lengths (A : Type) (m : list A) r :
  argsort_contract argsort ->
  pad_and_sort argsort xs cap = Ok (batch, orig_idxs, length_idxs, lengths) ->
  index_rows m orig_idxs = Ok r ->
  2 <= length xs.
Proof.
  intros Hsort Hp Hi.
  destruct xs as [|x [|y xs]]; simpl; [|  |lia].
  - rewrite pad_and_sort_nil in Hp by done. discriminate.
  - unfold pad_and_sort in Hp. simpl in Hp. injection Hp as <- <- <- <-.
    discriminate.
Qed.

(** Re-expanding with [orig_idxs] gives the padded inputs in input order. *)
Lemma pad_and_sort_reexpand (argsort : bool -> list nat -> list nat)
    (xs : list (list Z)) cap batch orig_idxs length_idxs lengths r :
  argsort_contract argsort ->
  pad_and_sort argsort xs cap = Ok (batch, orig_idxs, length_idxs, lengths) ->
  index_rows batch orig_idxs = Ok r ->
  r = padded_input xs cap.
Proof.
  intros Hsort Hp Hi.
  pose proof (pad_and_sort_indexable argsort xs cap _ _ _ _ _ _ _ Hsort Hp Hi) as HN.
  destruct (pad_and_sort_reorder argsort xs cap Hsort HN)
    as (b' & o' & l' & lens' & Heq & _ & _ & _ & Hre & _).
  rewrite Hp in Heq. injection Heq as -> -> -> ->.
  rewrite Hre in Hi. congruence.
Qed.

Lemma truncate_lengths_eq (xs ys : list (list Z)) cap :
  length <$> xs = length <$> ys ->
  length <$> truncate cap xs = length <$> truncate cap ys.
Proof.
  intros H. unfold truncate. case_decide; [|done].
  rewrite <- !list_fmap_compose.
  revert ys H. induction xs as [|x xs IH]; intros [|y ys] H; simpl in *; try done.
  injection H as Hxy H. rewrite !length_take, Hxy. f_equal. by apply IH.
Qed.

(** Two lists whose sequences have the same lengths are sorted by the same
    permutation: re-expanding the second with the first's [orig_idxs]
    gives the second's padded inputs in input order. *)
Lemma pad_and_sort_borrowed_reexpand (argsort : bool -> list nat -> list nat)
    (xs ys : list (list Z)) cap bx ox lx lensx b_y oy ly lensy rx ry :
  argsort_contract argsort ->
  length <$> xs = length <$> ys ->
  pad_and_sort argsort xs cap = Ok (bx, ox, lx, lensx) ->
  index_rows bx ox = Ok rx ->
  pad_and_sort argsort ys cap = Ok (b_y, oy, ly, lensy) ->
  index_rows b_y ox = Ok ry ->
  ry = padded_input ys cap.
Proof.
  intros Hsort Hlen Hx Hix Hy Hiy.
  pose proof (pad_and_sort_indexable argsort xs cap _ _ _ _ _ _ _ Hsort Hx Hix) as HN.
  assert (HNy : 2 <= length ys).
  { apply (f_equal length) in Hlen. rewrite !length_fmap in Hlen. lia. }
  pose proof (truncate_lengths_eq xs ys cap Hlen) as Htr.
  assert (Hox : ox = oy).
  { rewrite (pad_and_sort_general argsort xs cap Hsort HN) in Hx.
    rewrite (pad_and_sort_general argsort ys cap Hsort HNy) in Hy.
    injection Hx as _ <- _ _. injection Hy as _ <- _ _.
    by rewrite Htr. }
  subst ox. eapply pad_and_sort_reexpand; eauto.
Qed.

Lemma spans_aligned_lengths (batch : list EncodedSample) :
  Forall spans_aligned batch ->
  length <$> (span_starts <$> batch) = length <$> (context_words <$> batch) /\
  length <$> (span_ends <$> batch) = length <$> (context_words <$> batch).
Proof.
  intros Hal. rewrite <- !list_fmap_compose.
  split; apply list_fmap_ext; intros i s Hi;
    destruct (Forall_lookup_1 _ _ _ _ Hal Hi); done.
Qed.

Lemma padded_input_shape2 (xs : list (list Z)) cap :
  has_shape2 (padded_input xs cap) (length xs) (max_list_with length (truncate cap xs)).
Proof. apply padded_input_shape. Qed.

(** The steps of a [collate_batch] call that returns a batch. *)
Lemma collate_batch_Ok_inv (argsort : bool -> list nat -> list nat)
    (batch : list EncodedSample) (max_question_size max_context_size : nat) (b : QABatch.t) :
  collate_batch argsort batch max_question_size max_context_size = Ok b ->
  exists mqw mcw qw0 qo ql qlens qw mql qch cw0 co cl clens cw mcl cch
         ss0 so sl slens ss se0 eo el elens se,
    collect_max_word_lens batch 0 0 = Ok (mqw, mcw) /\
    pad_and_sort argsort (question_words <$> batch) max_question_size = Ok (qw0, qo, ql, qlens) /\
    index_rows qw0 qo = Ok qw /\
    first_len qlens = Ok mql /\
    build_char_grid (length batch) mql mqw max_question_size (question_chars <$> batch) = Ok qch /\
    pad_and_sort argsort (context_words <$> batch) max_context_size = Ok (cw0, co, cl, clens) /\
    index_rows cw0 co = Ok cw /\
    first_len clens = Ok mcl /\
    build_char_grid (length batch) mcl mcw max_context_size (context_chars <$> batch) = Ok cch /\
    pad_and_sort argsort (span_starts <$> batch) max_context_size = Ok (ss0, so, sl, slens) /\
    index_rows ss0 co = Ok ss /\
    pad_and_sort argsort (span_ends <$> batch) max_context_size = Ok (se0, eo, el, elens) /\
    index_rows se0 co = Ok se /\
    b = QABatch.mk (question_id <$> batch)
          (on_cpu qw) (on_cpu qch) (on_cpu qlens) (on_cpu ql) (on_cpu qo) (on_cpu (mask_sequence qw))
          (on_cpu cw) (on_cpu cch) (on_cpu clens) (on_cpu cl) (on_cpu co) (on_cpu (mask_sequence cw))
          (on_cpu ss) (on_cpu se).
Proof.
  intros H. unfold collate_batch in H. cbn zeta in H. inv_binds H.
  injection H as <-.
  do 26 eexists. repeat split; eassumption.
Qed.

(** ** C10 *)

(** C10: when every sample's span vectors are as long as its context (as
    the [EncodedSample] constructor makes them), the assembled
    [answer_span_starts] and [answer_span_ends] have the shape of the
    assembled [context_words], for any context cap. *)
Theorem collate_batch_span_shape (argsort : bool -> list nat -> list nat)
    (batch : list EncodedSample) (max_question_size max_context_size : nat) (b : QABatch.t) :
  argsort_contract argsort ->
  Forall spans_aligned batch ->
  collate_batch argsort batch max_question_size max_context_size = Ok b ->
  exists rows width,
    has_shape2 (tdata (QABatch.context_words b)) rows width /\
    has_shape2 (tdata (QABatch.answer_span_starts b)) rows width /\
    has_shape2 (tdata (QABatch.answer_span_ends b)) rows width.
Proof.
  intros Hsort Hal H.
  apply collate_batch_Ok_inv in H as (mqw & mcw & qw0 & qo & ql & qlens & qw & mql & qch &
    cw0 & co & cl & clens & cw & mcl & cch & ss0 & so & sl & slens & ss &
    se0 & eo & el & elens & se & _ & _ & _ & _ & _ & Hc & Hci & _ & _ & Hs & Hsi & He & Hei & ->).
  simpl.
  destruct (spans_aligned_lengths batch Hal) as [Hls Hle].
  rewrite (pad_and_sort_reexpand _ _ _ _ _ _ _ _ Hsort Hc Hci).
  rewrite (pad_and_sort_borrowed_reexpand argsort _ _ _ _ _ _ _ _ _ _ _ _ _
             Hsort (eq_sym Hls) Hc Hci Hs Hsi).
  rewrite (pad_and_sort_borrowed_reexpand argsort _ _ _ _ _ _ _ _ _ _ _ _ _
             Hsort (eq_sym Hle) Hc Hci He Hei).
  exists (length batch), (max_list_with length (truncate max_context_size (context_words <$> batch))).
  pose proof (padded_input_shape2 (context_words <$> batch) max_context_size) as H1.
  pose proof (padded_input_shape2 (span_starts <$> batch) max_context_size) as H2.
  pose proof (padded_input_shape2 (span_ends <$> batch) max_context_size) as H3.
  rewrite !length_fmap in H1, H2, H3.
  rewrite (max_list_with_length_eq _ _ (truncate_lengths_eq _ _ max_context_size Hls)) in H2.
  rewrite (max_list_with_length_eq _ _ (truncate_lengths_eq _ _ max_context_size Hle)) in H3.
  auto.
Qed.

Lemma collate_batch_span_shape_witness :
  argsort_contract (insertion_argsort false) /\
  Forall spans_aligned example_samples /\
  exists b,
    collate_batch (insertion_argsort false) example_samples 0 2 = Ok b /\
    exists rows width,
      has_shape2 (tdata (QABatch.context_words b)) rows width /\
      has_shape2 (tdata (QABatch.answer_span_starts b)) rows width /\
      has_shape2 (tdata (QABatch.answer_span_ends b)) rows width.
Proof.
  assert (Hal : Forall spans_aligned example_samples)
    by (repeat constructor).
  split; [apply insertion_argsort_contract|]. split; [exact Hal|].
  eexists. split; [vm_compute; reflexivity|].
  apply (collate_batch_span_shape (insertion_argsort false) example_samples 0 2).
  - apply insertion_argsort_contract.
  - exact Hal.
  - vm_compute. reflexivity.
Defined.

(** ** C2 *)

Lemma padded_input_lookup (xs : list (list Z)) cap i x :
  xs !! i = Some x ->
  padded_input xs cap !! i =
    Some (pad_to (max_list_with length (truncate cap xs))
            (if decide (0 < cap) then take cap x else x)).
Proof.
  intros Hx. unfold padded_input. rewrite list_lookup_fmap.
  unfold truncate at 2. case_decide.
  - rewrite list_lookup_fmap, Hx. done.
  - rewrite Hx. done.
Qed.

Lemma pad_to_lookup_l n (l : list Z) k : k < length l -> pad_to n l !! k = l !! k.
Proof. intros Hk. unfold pad_to. by apply lookup_app_l. Qed.

Lemma pad_to_zeros n (l : list Z) :
  Forall (fun x => x = 0%Z) l -> Forall (fun x => x = 0%Z) (pad_to n l).
Proof. intros H. unfold pad_to. apply Forall_app. split; [done|]. by apply Forall_replicate. Qed.

(** A label vector re-expanded through [padded_input]: its ones below the
    cap stay at their position, an all-zero vector gives a zero row. *)
Lemma padded_input_labels (xs : list (list Z)) cap i x :
  xs !! i = Some x ->
  (forall k, (cap = 0 \/ k < cap) -> x !! k = Some 1%Z ->
     padded_input xs cap !! i ≫= (fun row => row !! k) = Some 1%Z) /\
  (Forall (fun v => v = 0%Z) x ->
     exists row, padded_input xs cap !! i = Some row /\ Forall (fun v => v = 0%Z) row).
Proof.
  intros Hx. rewrite (padded_input_lookup xs cap i x Hx). split.
  - intros k Hcap Hk. simpl.
    pose proof (lookup_lt_Some _ _ _ Hk) as Hlt.
    case_decide.
    + rewrite pad_to_lookup_l by (rewrite length_take; lia).
      rewrite lookup_take_lt by lia. done.
    + rewrite pad_to_lookup_l by lia. done.
  - intros Hz. eexists. split; [reflexivity|]. apply pad_to_zeros.
    case_decide; [by apply Forall_take|done].
Qed.

(** C2: in a batch returned by [collate_batch] (samples as the
    [EncodedSample] constructor builds them), a 1 at position [k] of a
    sample's span-start (span-end) vector, with [k] below the context cap,
    is a 1 at position [k] of that sample's row of [answer_span_starts]
    ([answer_span_ends]); an all-zero vector gives an all-zero row. *)
Theorem collate_batch_span_positions (argsort : bool -> list nat -> list nat)
    (batch : list EncodedSample) (max_question_size max_context_size : nat) (b : QABatch.t) :
  argsort_contract argsort ->
  Forall spans_aligned batch ->
  collate_batch argsort batch max_question_size max_context_size = Ok b ->
  forall i sample, batch !! i = Some sample ->
    (forall k, (max_context_size = 0 \/ k < max_context_size) ->
       (span_starts sample !! k = Some 1%Z ->
          tdata (QABatch.answer_span_starts b) !! i ≫= (fun row => row !! k) = Some 1%Z) /\
       (span_ends sample !! k = Some 1%Z ->
          tdata (QABatch.answer_span_ends b) !! i ≫= (fun row => row !! k) = Some 1%Z)) /\
    (Forall (fun x => x = 0%Z) (span_starts sample) ->
       exists row, tdata (QABatch.answer_span_starts b) !! i = Some row /\
                   Forall (fun x => x = 0%Z) row) /\
    (Forall (fun x => x = 0%Z) (span_ends sample) ->
       exists row, tdata (QABatch.answer_span_ends b) !! i = Some row /\
                   Forall (fun x => x = 0%Z) row).
Proof.
  intros Hsort Hal H i sample Hi.
  apply collate_batch_Ok_inv in H as (mqw & mcw & qw0 & qo & ql & qlens & qw & mql & qch &
    cw0 & co & cl & clens & cw & mcl & cch & ss0 & so & sl & slens & ss &
    se0 & eo & el & elens & se & _ & _ & _ & _ & _ & Hc & Hci & _ & _ & Hs & Hsi & He & Hei & ->).
  simpl.
  destruct (spans_aligned_lengths batch Hal) as [Hls Hle].
  rewrite (pad_and_sort_borrowed_reexpand argsort _ _ _ _ _ _ _ _ _ _ _ _ _
             Hsort (eq_sym Hls) Hc Hci Hs Hsi).
  rewrite (pad_and_sort_borrowed_reexpand argsort _ _ _ _ _ _ _ _ _ _ _ _ _
             Hsort (eq_sym Hle) Hc Hci He Hei).
  assert (Hs_i : (span_starts <$> batch) !! i = Some (span_starts sample))
    by (rewrite list_lookup_fmap, Hi; done).
  assert (He_i : (span_ends <$> batch) !! i = Some (span_ends sample))
    by (rewrite list_lookup_fmap, Hi; done).
  destruct (padded_input_labels _ max_context_size _ _ Hs_i) as [Hs1 Hs0].
  destruct (padded_input_labels _ max_context_size _ _ He_i) as [He1 He0].
  split; [|split]; auto.
Qed.

Lemma collate_batch_span_positions_witness :
  argsort_contract (insertion_argsort false) /\
  Forall spans_aligned example_samples /\
  exists b,
    collate_batch (insertion_argsort false) example_samples 0 2 = Ok b /\
    example_samples !! 0 = Some example_q1 /\
    (forall k, (2 = 0 \/ k < 2) ->
       (span_starts example_q1 !! k = Some 1%Z ->
          tdata (QABatch.answer_span_starts b) !! 0 ≫= (fun row => row !! k) = Some 1%Z) /\
       (span_ends example_q1 !! k = Some 1%Z ->
          tdata (QABatch.answer_span_ends b) !! 0 ≫= (fun row => row !! k) = Some 1%Z)) /\
    (Forall (fun x => x = 0%Z) (span_starts example_q1) ->
       exists row, tdata (QABatch.answer_span_starts b) !! 0 = Some row /\
                   Forall (fun x => x = 0%Z) row) /\
    (Forall (fun x => x = 0%Z) (span_ends example_q1) ->
       exists row, tdata (QABatch.answer_span_ends b) !! 0 = Some row /\
                   Forall (fun x => x = 0%Z) row).
Proof.
  assert (Hal : Forall spans_aligned example_samples)
    by (repeat constructor).
  split; [apply insertion_argsort_contract|]. split; [exact Hal|].
  eexists. split; [vm_compute; reflexivity|]. split; [reflexivity|].
  apply (collate_batch_span_positions (insertion_argsort false) example_samples 0 2).
  - apply insertion_argsort_contract.
  - exact Hal.
  - vm_compute. reflexivity.
  - reflexivity.
Defined.

(** ** C6 *)


Lemma write_word_shape g bi wi word g' n l wd :
  has_shape3 g n l wd -> write_word g bi wi word = Ok g' -> has_shape3 g' n l wd.
Proof.
  unfold write_word. destruct (g !! bi) as [plane|] eqn:Hp; [|discriminate].
  destruct (plane !! wi) as [c|] eqn:Hc; [|discriminate].
  case_decide as Hlen; [|discriminate]. intros [Hn Hf] [= <-].
  destruct (Forall_lookup_1 _ _ _ _ Hf Hp) as [Hpl Hcells].
  pose proof (Forall_lookup_1 _ _ _ _ Hcells Hc) as Hcl. simpl in Hcl.
  split; [by rewrite length_insert|].
  apply Forall_insert; [done|]. split; [by rewrite length_insert|].
  apply Forall_insert; [done|]. simpl. rewrite length_app, length_drop, length_fmap. lia.
Qed.


Lemma write_words_shape g bi cap w0 words g' n l wd :
  has_shape3 g n l wd -> write_words g bi cap w0 words = Ok g' -> has_shape3 g' n l wd.
Proof.
  revert g w0. induction words as [|word rest IH]; intros g w0 Hg H; simpl in H.
  - by injection H as <-.
  - case_decide; [by injection H as <-|].
    apply bind_Ok in H as [g1 [H1 H]].
    eapply IH; [eapply write_word_shape|]; eauto.
Qed.



Lemma zeros3_shape n l wd : has_shape3 (zeros3 n l wd) n l wd.
Proof.
  unfold zeros3. split; [apply length_replicate|].
  apply Forall_replicate. split; [apply length_replicate|].
  apply Forall_replicate, length_replicate.
Qed.







Lemma max_word_size_Ok chars w : max_word_size chars = Ok w -> w = max_list_with length chars.
Proof. destruct chars; simpl; [discriminate|]. by intros [= <-]. Qed.

Lemma longest_word_cons chars chars_list :
  longest_word (chars :: chars_list) = max_list_with length chars `max` longest_word chars_list.
Proof. reflexivity. Qed.

(** The running maxima of the collecting loop. *)
Lemma collect_max_word_lens_Ok batch m1 m2 a c :
  collect_max_word_lens batch m1 m2 = Ok (a, c) ->
  a = m1 `max` longest_word (question_chars <$> batch) /\
  c = m2 `max` longest_word (context_chars <$> batch).
Proof.
  revert m1 m2. induction batch as [|s rest IH]; intros m1 m2 H; simpl in H.
  - injection H as <- <-. simpl. split; lia.
  - apply bind_Ok in H as [wq [Hq H]]. apply bind_Ok in H as [wc [Hc H]].
    apply max_word_size_Ok in Hq, Hc. subst wq wc.
    destruct (IH _ _ H) as [-> ->].
    rewrite !fmap_cons, !longest_word_cons. split; lia.
Qed.

Lemma max_list_le_head (x : nat) (l : list nat) :
  Forall (fun y => y <= x) l -> max_list l <= x.
Proof.
  induction 1 as [|y l Hy _ IH]; [simpl; lia|].
  change (y `max` max_list l <= x). lia.
Qed.

Lemma sorted_desc_head_max (x : nat) (rest : list nat) :
  Sorted (sort_rel true) (x :: rest) -> x = max_list (x :: rest).
Proof.
  intros Hs.
  apply (Sorted_StronglySorted (sort_rel true)
           (Transitive0 := fun a b c => ltac:(unfold sort_rel; lia))) in Hs.
  inversion Hs as [|? ? _ Hall]; subst.
  pose proof (max_list_le_head x rest Hall).
  change (x = x `max` max_list rest). lia.
Qed.

(** The first returned length is the padded width. *)
Lemma first_len_max (argsort : bool -> list nat -> list nat)
    (xs : list (list Z)) cap w0 o l lens m :
  argsort_contract argsort -> 2 <= length xs ->
  pad_and_sort argsort xs cap = Ok (w0, o, l, lens) ->
  first_len lens = Ok m -> m = max_word_count xs cap.
Proof.
  intros Hsort HN Hp Hf.
  rewrite (pad_and_sort_general argsort xs cap Hsort HN) in Hp.
  injection Hp as _ _ _ <-.
  unfold max_word_count. set (s := truncate cap xs) in *.
  destruct (Hsort true (length <$> s)) as [Hperm Hps].
  destruct ((fun i => (length <$> s) !!! i) <$> argsort true (length <$> s))
    as [|x rest] eqn:E; [discriminate|].
  simpl in Hf. injection Hf as <-.
  rewrite (sorted_desc_head_max x rest) by exact Hps.
  rewrite <- E, (permuted_rows (length <$> s)) by exact Hperm.
  apply max_list_fmap.
Qed.





(** ** Further properties of collate_batch and pad_and_sort *)

(** A batch of one sample never collates: [pad_and_sort] hands back float
    index tensors for it and indexing with them raises. *)
Theorem collate_batch_one_sample_raises (argsort : bool -> list nat -> list nat)
    (s : EncodedSample) (max_question_size max_context_size : nat) :
  exists e, collate_batch argsort [s] max_question_size max_context_size = Err e.
Proof.
  destruct (collate_batch argsort [s] max_question_size max_context_size) eqn:H; [exfalso|eauto].
  apply collate_batch_Ok_inv in H as (mqw & mcw & qw0 & qo & ql & qlens & qw & mql & qch &
    cw0 & co & cl & clens & cw & mcl & cch & ss0 & so & sl & slens & ss &
    se0 & eo & el & elens & se & _ & Hq & Hqi & _).
  unfold pad_and_sort in Hq. simpl in Hq. injection Hq as <- <- <- <-.
  discriminate Hqi.
Qed.

Lemma write_word_ok g bi wi word n l wd :
  has_shape3 g n l wd -> bi < n -> wi < l -> length word <= wd ->
  exists g', write_word g bi wi word = Ok g'.
Proof.
  intros [Hn Hf] Hbi Hwi Hw. unfold write_word.
  destruct (lookup_lt_is_Some_2 g bi) as [plane Hp]; [lia|]. rewrite Hp.
  destruct (Forall_lookup_1 _ _ _ _ Hf Hp) as [Hpl Hcells].
  destruct (lookup_lt_is_Some_2 plane wi) as [c Hc]; [lia|]. rewrite Hc.
  pose proof (Forall_lookup_1 _ _ _ _ Hcells Hc) as Hcl. simpl in Hcl.
  rewrite decide_True by lia. eauto.
Qed.

Lemma write_words_ok g bi cap w0 words n l wd :
  has_shape3 g n l wd -> bi < n ->
  (forall k word, words !! k = Some word -> (cap = 0 \/ w0 + k < cap) ->
     w0 + k < l /\ length word <= wd) ->
  exists g', write_words g bi cap w0 words = Ok g'.
Proof.
  revert g w0. induction words as [|word rest IH]; intros g w0 Hg Hbi Hw; simpl; [eauto|].
  case_decide as Hbrk; [eauto|].
  destruct (Hw 0 word) as [Hl Hlen]; [done|lia|].
  destruct (write_word_ok g bi w0 word n l wd) as [g1 H1]; [done|done|lia|done|].
  rewrite H1. simpl. apply (IH g1 (S w0)).
  - eapply write_word_shape; eauto.
  - done.
  - intros k word' Hk Hcap. destruct (Hw (S k) word') as [Hl' Hlen']; [done|lia|]. split; [lia|done].
Qed.

Lemma write_samples_ok g b0 cap cl n l wd :
  has_shape3 g n l wd -> b0 + length cl <= n ->
  (forall i chars k word, cl !! i = Some chars -> chars !! k = Some word ->
     (cap = 0 \/ k < cap) -> k < l /\ length word <= wd) ->
  exists g', write_samples g b0 cap cl = Ok g'.
Proof.
  revert g b0. induction cl as [|chars rest IH]; intros g b0 Hg Hn Hw; simpl; [eauto|].
  simpl in Hn.
  destruct (write_words_ok g b0 cap 0 chars n l wd) as [g1 H1]; [done|lia| |].
  { intros k word Hk Hcap. apply (Hw 0 chars k word); [done|done|lia]. }
  rewrite H1. simpl. apply (IH g1 (S b0)).
  - eapply write_words_shape; eauto.
  - lia.
  - intros i chars' k word Hi Hk Hcap. by apply (Hw (S i) chars' k word).
Qed.

Lemma collect_max_word_lens_ok batch m1 m2 :
  Forall (fun s => question_chars s <> [] /\ context_chars s <> []) batch ->
  exists a c, collect_max_word_lens batch m1 m2 = Ok (a, c).
Proof.
  revert m1 m2. induction batch as [|s rest IH]; intros m1 m2 Hne; simpl; [eauto|].
  apply Forall_cons in Hne as [[Hq Hc] Hne].
  destruct (question_chars s); [done|]. destruct (context_chars s); [done|].
  simpl. by apply IH.
Qed.

Lemma pad_and_sort_batch_length (argsort : bool -> list nat -> list nat)
    (xs : list (list Z)) cap b o l lens :
  argsort_contract argsort -> 2 <= length xs ->
  pad_and_sort argsort xs cap = Ok (b, o, l, lens) ->
  length b = length xs /\ length lens = length xs.
Proof.
  intros Hsort HN Hp.
  rewrite (pad_and_sort_general argsort xs cap Hsort HN) in Hp.
  injection Hp as <- _ _ <-.
  destruct (Hsort true (length <$> truncate cap xs)) as [Hperm _].
  apply Permutation_length in Hperm.
  rewrite length_seq, length_fmap, truncate_length in Hperm.
  rewrite !length_fmap. lia.
Qed.

Lemma pad_and_sort_first_len (argsort : bool -> list nat -> list nat)
    (xs : list (list Z)) cap b o l lens :
  argsort_contract argsort -> 2 <= length xs ->
  pad_and_sort argsort xs cap = Ok (b, o, l, lens) ->
  first_len lens = Ok (max_word_count xs cap).
Proof.
  intros Hsort HN Hp.
  destruct (pad_and_sort_batch_length argsort xs cap b o l lens Hsort HN Hp) as [_ Hl].
  destruct lens as [|m lens']; [simpl in Hl; lia|].
  rewrite <- (first_len_max argsort xs cap b o l (m :: lens') m Hsort HN Hp); done.
Qed.

(** The character grid of a field of well-formed samples fits the grid
    [collate_batch] allocates for it. *)
Lemma char_grid_inputs_ok (batch : list EncodedSample)
    (f_words : EncodedSample -> list Z) (f_chars : EncodedSample -> list (list Z)) cap :
  Forall (fun s => length (f_chars s) = length (f_words s)) batch ->
  forall i chars k word, (f_chars <$> batch) !! i = Some chars -> chars !! k = Some word ->
    (cap = 0 \/ k < cap) ->
    k < max_word_count (f_words <$> batch) cap /\
    length word <= 0 `max` longest_word (f_chars <$> batch).
Proof.
  intros Hal i chars k word Hi Hk Hcap.
  rewrite list_lookup_fmap in Hi.
  destruct (batch !! i) as [s|] eqn:Hs; simpl in Hi; [|discriminate]. injection Hi as <-.
  pose proof (Forall_lookup_1 _ _ _ _ Hal Hs) as Hlen. simpl in Hlen.
  pose proof (lookup_lt_Some _ _ _ Hk) as Hkl.
  split.
  - unfold max_word_count.
    assert (Ht : truncate cap (f_words <$> batch) !! i =
                 Some (if decide (0 < cap) then take cap (f_words s) else f_words s)).
    { unfold truncate. case_decide; rewrite !list_lookup_fmap, Hs; done. }
    pose proof (max_list_with_ub length _ _ (list_elem_of_lookup_2 _ _ _ Ht)) as Hub.
    case_decide; [rewrite length_take in Hub|]; lia.
  - assert (Hc : (f_chars <$> batch) !! i = Some (f_chars s))
      by (rewrite list_lookup_fmap, Hs; done).
    pose proof (max_list_with_ub length _ _ (list_elem_of_lookup_2 _ _ _ Hk)) as H1.
    pose proof (max_list_with_ub (max_list_with length) _ _ (list_elem_of_lookup_2 _ _ _ Hc)) as H2.
    unfold longest_word. lia.
Qed.

Lemma collate_batch_ok_of_well_formed (argsort : bool -> list nat -> list nat)
    (batch : list EncodedSample) (max_question_size max_context_size : nat) :
  argsort_contract argsort ->
  2 <= length batch ->
  Forall well_formed_sample batch ->
  exists b, collate_batch argsort batch max_question_size max_context_size = Ok b.
Proof.
  intros Hsort HN Hwf.
  assert (HNq : 2 <= length (question_words <$> batch)) by (rewrite length_fmap; done).
  assert (HNc : 2 <= length (context_words <$> batch)) by (rewrite length_fmap; done).
  assert (HNs : 2 <= length (span_starts <$> batch)) by (rewrite length_fmap; done).
  assert (HNe : 2 <= length (span_ends <$> batch)) by (rewrite length_fmap; done).
  destruct (collect_max_word_lens_ok batch 0 0) as (a & c & Hm).
  { eapply Forall_impl; [exact Hwf|]. intros s (? & ? & _); done. }
  destruct (collect_max_word_lens_Ok _ _ _ _ _ Hm) as [Ha Hc]. subst a c.
  destruct (pad_and_sort_reorder argsort _ max_question_size Hsort HNq)
    as (qb & qo & ql & qlens & Hq & _ & _ & _ & Hqi & _).
  destruct (pad_and_sort_reorder argsort _ max_context_size Hsort HNc)
    as (cb & co & cl & clens & Hc & Hco & _ & _ & Hci & _).
  pose proof (pad_and_sort_first_len argsort _ _ _ _ _ _ Hsort HNq Hq) as Hqf.
  pose proof (pad_and_sort_first_len argsort _ _ _ _ _ _ Hsort HNc Hc) as Hcf.
  destruct (write_samples_ok (zeros3 (length batch) (max_word_count (question_words <$> batch) max_question_size)
              (0 `max` longest_word (question_chars <$> batch))) 0 max_question_size
              (question_chars <$> batch) (length batch)
              (max_word_count (question_words <$> batch) max_question_size)
              (0 `max` longest_word (question_chars <$> batch))) as [qg Hqg].
  { apply zeros3_shape. } { rewrite length_fmap. lia. }
  { apply char_grid_inputs_ok. eapply Forall_impl; [exact Hwf|]. intros s (? & ? & ? & ? & ?); done. }
  destruct (write_samples_ok (zeros3 (length batch) (max_word_count (context_words <$> batch) max_context_size)
              (0 `max` longest_word (context_chars <$> batch))) 0 max_context_size
              (context_chars <$> batch) (length batch)
              (max_word_count (context_words <$> batch) max_context_size)
              (0 `max` longest_word (context_chars <$> batch))) as [cg Hcg].
  { apply zeros3_shape. } { rewrite length_fmap. lia. }
  { apply char_grid_inputs_ok. eapply Forall_impl; [exact Hwf|]. intros s (? & ? & ? & ? & ?); done. }
  destruct (pad_and_sort argsort (span_starts <$> batch) max_context_size)
    as [[[[sb so] sl] slens]|e] eqn:Hs;
    [|rewrite (pad_and_sort_general argsort _ _ Hsort HNs) in Hs; discriminate].
  destruct (pad_and_sort argsort (span_ends <$> batch) max_context_size)
    as [[[[eb eo] el] elens]|e] eqn:He;
    [|rewrite (pad_and_sort_general argsort _ _ Hsort HNe) in He; discriminate].
  destruct (pad_and_sort_batch_length argsort _ _ _ _ _ _ Hsort HNs Hs) as [Hsl _].
  destruct (pad_and_sort_batch_length argsort _ _ _ _ _ _ Hsort HNe He) as [Hel _].
  rewrite !length_fmap in Hco, Hsl, Hel.
  assert (Hsi : index_rows sb (mk_idx Long co) = Ok ((fun i => sb !!! i) <$> co)).
  { apply gather_rows_ok. apply (perm_seq_Forall_lt co (length batch)); [done|lia]. }
  assert (Hei : index_rows eb (mk_idx Long co) = Ok ((fun i => eb !!! i) <$> co)).
  { apply gather_rows_ok. apply (perm_seq_Forall_lt co (length batch)); [done|lia]. }
  unfold collate_batch. cbn zeta.
  rewrite Hm. cbn [mbind result_bind].
  rewrite Hq. cbn [mbind result_bind]. rewrite Hqi. cbn [mbind result_bind].
  rewrite Hqf. cbn [mbind result_bind].
  unfold build_char_grid. rewrite Hqg. cbn [mbind result_bind].
  rewrite Hc. cbn [mbind result_bind]. rewrite Hci. cbn [mbind result_bind].
  rewrite Hcf. cbn [mbind result_bind].
  rewrite Hcg. cbn [mbind result_bind].
  rewrite Hs. cbn [mbind result_bind]. rewrite Hsi. cbn [mbind result_bind].
  rewrite He. cbn [mbind result_bind]. rewrite Hei. cbn [mbind result_bind].
  eauto.
Qed.

(** [collate_batch] returns a batch for two or more well-formed samples,
    whatever the caps. *)
Theorem collate_batch_well_formed_ok (argsort : bool -> list nat -> list nat)
    (batch : list EncodedSample) (max_question_size max_context_size : nat) :
  argsort_contract argsort ->
  2 <= length batch ->
  Forall well_formed_sample batch ->
  exists b, collate_batch argsort batch max_question_size max_context_size = Ok b.
Proof. apply collate_batch_ok_of_well_formed. Qed.

Lemma mask_row_pad (t : list Z) n :
  Forall (fun x => x <> 0%Z) t ->
  (fun x : Z => if decide (x = 0%Z) then 0%Z else 1%Z) <$> pad_to n t =
  replicate (length t) 1%Z ++ replicate (n - length t) 0%Z.
Proof.
  intros Ht. unfold pad_to. rewrite fmap_app, fmap_replicate. f_equal.
  induction Ht as [|x t Hx _ IH]; simpl; [done|].
  rewrite decide_False by done. by f_equal.
Qed.

Lemma capped_len_length cap (l : list Z) :
  length (if decide (0 < cap) then take cap l else l) = capped_len cap l.
Proof. unfold capped_len. case_decide; [apply length_take|done]. Qed.

(** The mask row of a re-expanded sequence without zero ids. *)
Lemma mask_padded_input_row (xs : list (list Z)) cap i x :
  xs !! i = Some x -> Forall (fun v => v <> 0%Z) x ->
  mask_sequence (padded_input xs cap) !! i =
    Some (replicate (capped_len cap x) 1%Z ++
          replicate (max_word_count xs cap - capped_len cap x) 0%Z).
Proof.
  intros Hx Hnz. unfold mask_sequence. rewrite list_lookup_fmap.
  rewrite (padded_input_lookup xs cap i x Hx). simpl.
  rewrite mask_row_pad, capped_len_length; [done|].
  case_decide; [by apply Forall_take|done].
Qed.

(** Re-deriving lengths from the masks: in a batch returned by
    [collate_batch], the mask row of a sample whose word ids are all
    nonzero is a run of ones as long as its capped word count, followed by
    zeros up to the padded width. *)
Theorem collate_batch_mask_rows (argsort : bool -> list nat -> list nat)
    (batch : list EncodedSample) (max_question_size max_context_size : nat) (b : QABatch.t) :
  argsort_contract argsort ->
  collate_batch argsort batch max_question_size max_context_size = Ok b ->
  forall i s, batch !! i = Some s ->
    (Forall (fun x => x <> 0%Z) (question_words s) ->
       tdata (QABatch.question_mask b) !! i =
         Some (replicate (capped_len max_question_size (question_words s)) 1%Z ++
               replicate (max_word_count (question_words <$> batch) max_question_size
                          - capped_len max_question_size (question_words s)) 0%Z)) /\
    (Forall (fun x => x <> 0%Z) (context_words s) ->
       tdata (QABatch.context_mask b) !! i =
         Some (replicate (capped_len max_context_size (context_words s)) 1%Z ++
               replicate (max_word_count (context_words <$> batch) max_context_size
                          - capped_len max_context_size (context_words s)) 0%Z)).
Proof.
  intros Hsort H i s Hi.
  apply collate_batch_Ok_inv in H as (mqw & mcw & qw0 & qo & ql & qlens & qw & mql & qch &
    cw0 & co & cl & clens & cw & mcl & cch & ss0 & so & sl & slens & ss &
    se0 & eo & el & elens & se & _ & Hq & Hqi & _ & _ & Hc & Hci & _ & _ & _ & _ & _ & _ & ->).
  simpl.
  rewrite (pad_and_sort_reexpand argsort _ _ _ _ _ _ _ Hsort Hq Hqi).
  rewrite (pad_and_sort_reexpand argsort _ _ _ _ _ _ _ Hsort Hc Hci).
  split; intros Hnz; apply mask_padded_input_row; try done;
    rewrite list_lookup_fmap, Hi; done.
Qed.

Lemma collate_batch_mask_rows_witness :
  argsort_contract (insertion_argsort false) /\
  exists b,
    collate_batch (insertion_argsort false) example_samples 1 0 = Ok b /\
    example_samples !! 1 = Some example_q2 /\
    (Forall (fun x => x <> 0%Z) (question_words example_q2) ->
       tdata (QABatch.question_mask b) !! 1 =
         Some (replicate (capped_len 1 (question_words example_q2)) 1%Z ++
               replicate (max_word_count (question_words <$> example_samples) 1
                          - capped_len 1 (question_words example_q2)) 0%Z)) /\
    (Forall (fun x => x <> 0%Z) (context_words example_q2) ->
       tdata (QABatch.context_mask b) !! 1 =
         Some (replicate (capped_len 0 (context_words example_q2)) 1%Z ++
               replicate (max_word_count (context_words <$> example_samples) 0
                          - capped_len 0 (context_words example_q2)) 0%Z)).
Proof.
  split; [apply insertion_argsort_contract|].
  eexists. split; [vm_compute; reflexivity|]. split; [reflexivity|].
  apply (collate_batch_mask_rows (insertion_argsort false) example_samples 1 0).
  - apply insertion_argsort_contract.
  - vm_compute. reflexivity.
  - reflexivity.
Defined.

Lemma collate_batch_well_formed_ok_witness :
  argsort_contract (insertion_argsort false) /\
  2 <= length example_samples /\
  Forall well_formed_sample example_samples /\
  exists b, collate_batch (insertion_argsort false) example_samples 1 2 = Ok b.
Proof.
  assert (Hwf : Forall well_formed_sample example_samples).
  { repeat constructor; discriminate. }
  split; [apply insertion_argsort_contract|]. split; [simpl; lia|]. split; [exact Hwf|].
  apply (collate_batch_well_formed_ok (insertion_argsort false) example_samples 1 2).
  - apply insertion_argsort_contract.
  - simpl; lia.
  - exact Hwf.
Defined.

(** The length-sorted view of one field, read off the batch. *)
Lemma pad_and_sort_sorted_view (argsort : bool -> list nat -> list nat)
    (xs : list (list Z)) cap b o l lens w :
  argsort_contract argsort ->
  pad_and_sort argsort xs cap = Ok (b, o, l, lens) ->
  index_rows b o = Ok w ->
  index_rows w l = Ok b /\
  Sorted (fun x y => y <= x) lens /\
  length lens = length xs /\
  forall k, k < length xs ->
    exists t, t ∈ truncate cap xs /\
      b !! k = Some (pad_to (max_word_count xs cap) t) /\ length t = lens !!! k.
Proof.
  intros Hsort Hp Hi.
  pose proof (pad_and_sort_indexable argsort xs cap _ _ _ _ _ _ _ Hsort Hp Hi) as HN.
  destruct (pad_and_sort_reorder argsort xs cap Hsort HN)
    as (b' & o' & l' & lens' & Heq & _ & _ & _ & Hre & Hsorted).
  rewrite Hp in Heq. injection Heq as -> -> -> ->.
  rewrite Hre in Hi. injection Hi as <-.
  rewrite (pad_and_sort_general argsort xs cap Hsort HN) in Hp.
  injection Hp as Hb _ _ Hlens.
  set (s := truncate cap xs) in *.
  set (p := argsort true (length <$> s)) in *.
  destruct (Hsort true (length <$> s)) as [Hperm Hps]. fold p in Hperm, Hps.
  assert (Hls : length s = length xs) by apply truncate_length.
  rewrite length_fmap, Hls in Hperm.
  assert (Hlp : length p = length xs) by (rewrite Hperm, length_seq; done).
  split; [done|]. split; [rewrite <- Hlens; exact Hps|].
  split; [rewrite <- Hlens, length_fmap; done|].
  intros k Hk.
  pose proof (perm_seq_lookup_lt p (length xs) k Hperm Hk) as Hpk.
  exists (s !!! (p !!! k)). split; [|split].
  - apply list_elem_of_lookup_2 with (p !!! k). apply list_lookup_lookup_total_lt. lia.
  - rewrite <- Hb, list_lookup_fmap, list_lookup_fmap.
    rewrite (list_lookup_lookup_total_lt p k) by lia. done.
  - rewrite <- Hlens.
    rewrite (list_lookup_total_fmap (fun i => (length <$> s) !!! i)) by lia.
    rewrite (list_lookup_total_fmap length) by lia. done.
Qed.

(** The length-sorted views of a batch (the [QABatch] docstring):
    re-indexing [question_words] with [question_len_idxs] gives a view
    whose row [k] is a capped question padded to the common width and
    [question_lens[k]] words long, the lengths being non-increasing; the
    view re-indexed with [question_orig_idxs] is [question_words] again.
    Likewise for the contexts. *)
Theorem collate_batch_sorted_views (argsort : bool -> list nat -> list nat)
    (batch : list EncodedSample) (max_question_size max_context_size : nat) (b : QABatch.t) :
  argsort_contract argsort ->
  collate_batch argsort batch max_question_size max_context_size = Ok b ->
  (exists sorted,
    index_rows (tdata (QABatch.question_words b)) (tdata (QABatch.question_len_idxs b)) = Ok sorted /\
    index_rows sorted (tdata (QABatch.question_orig_idxs b)) = Ok (tdata (QABatch.question_words b)) /\
    Sorted (fun x y => y <= x) (tdata (QABatch.question_lens b)) /\
    length (tdata (QABatch.question_lens b)) = length batch /\
    forall k, k < length batch ->
      exists t, t ∈ truncate max_question_size (question_words <$> batch) /\
        sorted !! k = Some (pad_to (max_word_count (question_words <$> batch) max_question_size) t) /\
        length t = tdata (QABatch.question_lens b) !!! k) /\
  (exists sorted,
    index_rows (tdata (QABatch.context_words b)) (tdata (QABatch.context_len_idxs b)) = Ok sorted /\
    index_rows sorted (tdata (QABatch.context_orig_idxs b)) = Ok (tdata (QABatch.context_words b)) /\
    Sorted (fun x y => y <= x) (tdata (QABatch.context_lens b)) /\
    length (tdata (QABatch.context_lens b)) = length batch /\
    forall k, k < length batch ->
      exists t, t ∈ truncate max_context_size (context_words <$> batch) /\
        sorted !! k = Some (pad_to (max_word_count (context_words <$> batch) max_context_size) t) /\
        length t = tdata (QABatch.context_lens b) !!! k).
Proof.
  intros Hsort H.
  apply collate_batch_Ok_inv in H as (mqw & mcw & qw0 & qo & ql & qlens & qw & mql & qch &
    cw0 & co & cl & clens & cw & mcl & cch & ss0 & so & sl & slens & ss &
    se0 & eo & el & elens & se & _ & Hq & Hqi & _ & _ & Hc & Hci & _ & _ & _ & _ & _ & _ & ->).
  simpl.
  destruct (pad_and_sort_sorted_view argsort _ _ _ _ _ _ _ Hsort Hq Hqi) as (Hq1 & Hq2 & Hq3 & Hq4).
  destruct (pad_and_sort_sorted_view argsort _ _ _ _ _ _ _ Hsort Hc Hci) as (Hc1 & Hc2 & Hc3 & Hc4).
  rewrite length_fmap in Hq3, Hq4, Hc3, Hc4.
  split; [exists qw0|exists cw0]; eauto 10.
Qed.

Lemma collate_batch_sorted_views_witness :
  argsort_contract (insertion_argsort false) /\
  exists b,
    collate_batch (insertion_argsort false) example_samples 0 0 = Ok b /\
  (exists sorted,
    index_rows (tdata (QABatch.question_words b)) (tdata (QABatch.question_len_idxs b)) = Ok sorted /\
    index_rows sorted (tdata (QABatch.question_orig_idxs b)) = Ok (tdata (QABatch.question_words b)) /\
    Sorted (fun x y => y <= x) (tdata (QABatch.question_lens b)) /\
    length (tdata (QABatch.question_lens b)) = length example_samples /\
    forall k, k < length example_samples ->
      exists t, t ∈ truncate 0 (question_words <$> example_samples) /\
        sorted !! k = Some (pad_to (max_word_count (question_words <$> example_samples) 0) t) /\
        length t = tdata (QABatch.question_lens b) !!! k) /\
  (exists sorted,
    index_rows (tdata (QABatch.context_words b)) (tdata (QABatch.context_len_idxs b)) = Ok sorted /\
    index_rows sorted (tdata (QABatch.context_orig_idxs b)) = Ok (tdata (QABatch.context_words b)) /\
    Sorted (fun x y => y <= x) (tdata (QABatch.context_lens b)) /\
    length (tdata (QABatch.context_lens b)) = length example_samples /\
    forall k, k < length example_samples ->
      exists t, t ∈ truncate 0 (context_words <$> example_samples) /\
        sorted !! k = Some (pad_to (max_word_count (context_words <$> example_samples) 0) t) /\
        length t = tdata (QABatch.context_lens b) !!! k).
Proof.
  split; [apply insertion_argsort_contract|].
  eexists. split; [vm_compute; reflexivity|].
  apply (collate_batch_sorted_views (insertion_argsort false) example_samples 0 0).
  - apply insertion_argsort_contract.
  - vm_compute. reflexivity.
Defined.

(** The collator used for evaluation, [get_collator()], trims nothing: row
    [i] of the batch's word tensors is sample [i]'s full word ids padded
    with zeros to the longest sequence of the batch. *)
Theorem get_collator_default_keeps_words (argsort : bool -> list nat -> list nat)
    (batch : list EncodedSample) (b : QABatch.t) :
  argsort_contract argsort ->
  get_collator argsort 0 0 batch = Ok b ->
  forall i s, batch !! i = Some s ->
    tdata (QABatch.question_words b) !! i =
      Some (pad_to (max_list_with length (question_words <$> batch)) (question_words s)) /\
    tdata (QABatch.context_words b) !! i =
      Some (pad_to (max_list_with length (context_words <$> batch)) (context_words s)).
Proof.
  intros Hsort H i s Hi. unfold get_collator in H.
  apply collate_batch_Ok_inv in H as (mqw & mcw & qw0 & qo & ql & qlens & qw & mql & qch &
    cw0 & co & cl & clens & cw & mcl & cch & ss0 & so & sl & slens & ss &
    se0 & eo & el & elens & se & _ & Hq & Hqi & _ & _ & Hc & Hci & _ & _ & _ & _ & _ & _ & ->).
  simpl.
  rewrite (pad_and_sort_reexpand argsort _ _ _ _ _ _ _ Hsort Hq Hqi).
  rewrite (pad_and_sort_reexpand argsort _ _ _ _ _ _ _ Hsort Hc Hci).
  rewrite (padded_input_lookup _ 0 i (question_words s)) by (rewrite list_lookup_fmap, Hi; done).
  rewrite (padded_input_lookup _ 0 i (context_words s)) by (rewrite list_lookup_fmap, Hi; done).
  unfold truncate. rewrite !decide_False by lia. done.
Qed.

Lemma get_collator_default_keeps_words_witness :
  argsort_contract (insertion_argsort false) /\
  exists b,
    get_collator (insertion_argsort false) 0 0 example_samples = Ok b /\
    example_samples !! 0 = Some example_q1 /\
    tdata (QABatch.question_words b) !! 0 =
      Some (pad_to (max_list_with length (question_words <$> example_samples)) (question_words example_q1)) /\
    tdata (QABatch.context_words b) !! 0 =
      Some (pad_to (max_list_with length (context_words <$> example_samples)) (context_words example_q1)).
Proof.
  split; [apply insertion_argsort_contract|].
  eexists. split; [vm_compute; reflexivity|]. split; [reflexivity|].
  apply (get_collator_default_keeps_words (insertion_argsort false) example_samples).
  - apply insertion_argsort_contract.
  - vm_compute. reflexivity.
  - reflexivity.
Defined.

Lemma truncate_short cap (xs : list (list Z)) :
  Forall (fun l => length l <= cap) xs -> truncate cap xs = xs.
Proof.
  intros Hs. unfold truncate. case_decide; [|done].
  induction Hs as [|x xs Hx _ IH]; [done|]. rewrite fmap_cons, IH, take_ge by done. done.
Qed.

(** A cap that no sequence exceeds changes nothing: [pad_and_sort] with it
    returns what it returns without a cap. *)
Theorem pad_and_sort_cap_no_effect (argsort : bool -> list nat -> list nat)
    (xs : list (list Z)) (cap : nat) :
  Forall (fun l => length l <= cap) xs ->
  pad_and_sort argsort xs cap = pad_and_sort argsort xs 0.
Proof.
  intros Hs. unfold pad_and_sort.
  rewrite (truncate_short cap xs Hs). unfold truncate at 1. done.
Qed.

Lemma pad_and_sort_cap_no_effect_witness :
  Forall (fun l => length l <= 3) ([[1;2]; [5;6;7]]%Z : list (list Z)) /\
  pad_and_sort (insertion_argsort false) [[1;2]; [5;6;7]]%Z 3 =
    pad_and_sort (insertion_argsort false) [[1;2]; [5;6;7]]%Z 0.
Proof.
  assert (Hs : Forall (fun l => length l <= 3) ([[1;2]; [5;6;7]]%Z : list (list Z)))
    by (repeat constructor; simpl; lia).
  split; [exact Hs|].
  apply (pad_and_sort_cap_no_effect (insertion_argsort false) [[1;2]; [5;6;7]]%Z 3 Hs).
Defined.

(** ** The encoders of qa.py *)

Lemma mid_bounds lo hi : lo < hi -> lo <= (lo + hi) / 2 < hi.
Proof.
  intros H. pose proof (Nat.div_mod (lo + hi) 2 ltac:(lia)).
  pose proof (Nat.mod_upper_bound (lo + hi) 2 ltac:(lia)). lia.
Qed.

(** The loop of [bisect_right]: the result splits [lo, hi) at the first
    element greater than [x], as seen at its two neighbours. *)
Lemma bisect_right_loop_spec fuel (a : list Z) x lo hi :
  hi <= length a -> lo <= hi -> hi - lo <= fuel ->
  lo <= bisect_right_loop fuel a x lo hi <= hi /\
  (lo < bisect_right_loop fuel a x lo hi ->
     (a !!! (bisect_right_loop fuel a x lo hi - 1)%nat <= x)%Z) /\
  (bisect_right_loop fuel a x lo hi < hi -> (x < a !!! bisect_right_loop fuel a x lo hi)%Z).
Proof.
  revert lo hi. induction fuel as [|fuel IH]; intros lo hi Hhi Hlo Hf; cbn [bisect_right_loop bisect_left_loop].
  - assert (lo = hi) by lia. subst. lia.
  - case_decide as Hlt; [|assert (lo = hi) by lia; subst; lia].
    pose proof (mid_bounds lo hi Hlt) as Hmid.
    case_decide as Hx.
    + destruct (IH lo ((lo + hi) / 2)) as (H1 & H2 & H3); [lia|lia|lia|].
      split; [lia|]. split; [done|].
      intros Hr. destruct (decide (bisect_right_loop fuel a x lo ((lo + hi) / 2) < (lo + hi) / 2)).
      * by apply H3.
      * assert (Heq : bisect_right_loop fuel a x lo ((lo + hi) / 2) = (lo + hi) / 2) by lia.
        by rewrite Heq.
    + destruct (IH (S ((lo + hi) / 2)) hi) as (H1 & H2 & H3); [lia|lia|lia|].
      split; [lia|]. split; [|done].
      intros Hr. destruct (decide (S ((lo + hi) / 2) < bisect_right_loop fuel a x (S ((lo + hi) / 2)) hi)).
      * by apply H2.
      * assert (Heq : bisect_right_loop fuel a x (S ((lo + hi) / 2)) hi = S ((lo + hi) / 2)) by lia.
        rewrite Heq. replace (S ((lo + hi) / 2) - 1) with ((lo + hi) / 2) by lia. lia.
Qed.

Lemma bisect_left_loop_spec fuel (a : list Z) x lo hi :
  hi <= length a -> lo <= hi -> hi - lo <= fuel ->
  lo <= bisect_left_loop fuel a x lo hi <= hi /\
  (lo < bisect_left_loop fuel a x lo hi ->
     (a !!! (bisect_left_loop fuel a x lo hi - 1)%nat < x)%Z) /\
  (bisect_left_loop fuel a x lo hi < hi -> (x <= a !!! bisect_left_loop fuel a x lo hi)%Z).
Proof.
  revert lo hi. induction fuel as [|fuel IH]; intros lo hi Hhi Hlo Hf; cbn [bisect_right_loop bisect_left_loop].
  - assert (lo = hi) by lia. subst. lia.
  - case_decide as Hlt; [|assert (lo = hi) by lia; subst; lia].
    pose proof (mid_bounds lo hi Hlt) as Hmid.
    case_decide as Hx.
    + destruct (IH (S ((lo + hi) / 2)) hi) as (H1 & H2 & H3); [lia|lia|lia|].
      split; [lia|]. split; [|done].
      intros Hr. destruct (decide (S ((lo + hi) / 2) < bisect_left_loop fuel a x (S ((lo + hi) / 2)) hi)).
      * by apply H2.
      * assert (Heq : bisect_left_loop fuel a x (S ((lo + hi) / 2)) hi = S ((lo + hi) / 2)) by lia.
        rewrite Heq. replace (S ((lo + hi) / 2) - 1) with ((lo + hi) / 2) by lia. lia.
    + destruct (IH lo ((lo + hi) / 2)) as (H1 & H2 & H3); [lia|lia|lia|].
      split; [lia|]. split; [done|].
      intros Hr. destruct (decide (bisect_left_loop fuel a x lo ((lo + hi) / 2) < (lo + hi) / 2)).
      * by apply H3.
      * assert (Heq : bisect_left_loop fuel a x lo ((lo + hi) / 2) = (lo + hi) / 2) by lia.
        rewrite Heq. lia.
Qed.

Lemma sorted_Z_lookup (a : list Z) i j :
  Sorted Z.le a -> i <= j < length a -> (a !!! i <= a !!! j)%Z.
Proof.
  intros Hs Hij.
  apply (Sorted_StronglySorted Z.le (Transitive0 := Z.le_trans)) in Hs.
  destruct (decide (i = j)) as [->|Hne]; [lia|].
  apply (StronglySorted_lookup Z.le a i j); [done| | |lia];
    apply list_lookup_lookup_total_lt; lia.
Qed.

(** On a sorted list, [bisect_right a x] is the number of elements [<= x]:
    they are the ones before it. *)
Lemma bisect_right_sorted (a : list Z) x :
  Sorted Z.le a ->
  bisect_right a x <= length a /\
  forall i, i < length a -> (i < bisect_right a x <-> (a !!! i <= x)%Z).
Proof.
  intros Hs. unfold bisect_right.
  destruct (bisect_right_loop_spec (length a) a x 0 (length a)) as (H1 & H2 & H3); [lia|lia|lia|].
  set (r := bisect_right_loop (length a) a x 0 (length a)) in *.
  split; [lia|]. intros i Hi. split.
  - intros Hir. pose proof (H2 ltac:(lia)).
    pose proof (sorted_Z_lookup a i (r - 1) Hs ltac:(lia)). lia.
  - intros Hai. destruct (decide (i < r)); [done|exfalso].
    pose proof (H3 ltac:(lia)).
    pose proof (sorted_Z_lookup a r i Hs ltac:(lia)). lia.
Qed.

(** On a sorted list, [bisect_left a x] is the number of elements [< x]. *)
Lemma bisect_left_sorted (a : list Z) x :
  Sorted Z.le a ->
  bisect_left a x <= length a /\
  forall i, i < length a -> (i < bisect_left a x <-> (a !!! i < x)%Z).
Proof.
  intros Hs. unfold bisect_left.
  destruct (bisect_left_loop_spec (length a) a x 0 (length a)) as (H1 & H2 & H3); [lia|lia|lia|].
  set (r := bisect_left_loop (length a) a x 0 (length a)) in *.
  split; [lia|]. intros i Hi. split.
  - intros Hir. pose proof (H2 ltac:(lia)).
    pose proof (sorted_Z_lookup a i (r - 1) Hs ltac:(lia)). lia.
  - intros Hai. destruct (decide (i < r)); [done|exfalso].
    pose proof (H3 ltac:(lia)).
    pose proof (sorted_Z_lookup a r i Hs ltac:(lia)). lia.
Qed.

Lemma EncodedAnswer_init_Ok (answer : Answer.t) (context_tokens : list Token.t) ea :
  EncodedAnswer.init answer context_tokens = QOk ea ->
  context_tokens <> [] /\
  ea = EncodedAnswer.mk
         (Z.of_nat (bisect_right ((fun tk => fst (Token.span tk)) <$> context_tokens)
                      (Answer.span_start answer)) - 1)
         (Z.of_nat (bisect_left ((fun tk => snd (Token.span tk)) <$> context_tokens)
                      (Answer.span_end answer))).
Proof.
  unfold EncodedAnswer.init.
  destruct context_tokens as [|tk tks]; simpl; [discriminate|].
  intros [= <-]. split; [done|]. rewrite <- !list_fmap_compose. done.
Qed.

(** [EncodedAnswer]'s start: with the context tokens in order of their
    start offsets, [span_start] is the last token starting at or before the
    answer's start: token [i] starts at or before it exactly when
    [i <= span_start]; it is [-1] when every token starts after it. *)
Theorem EncodedAnswer_span_start_last_token (answer : Answer.t) (context_tokens : list Token.t)
    (ea : EncodedAnswer.t) :
  Sorted Z.le ((fun tk => fst (Token.span tk)) <$> context_tokens) ->
  EncodedAnswer.init answer context_tokens = QOk ea ->
  (-1 <= EncodedAnswer.span_start ea < Z.of_nat (length context_tokens))%Z /\
  forall i tk, context_tokens !! i = Some tk ->
    ((Z.of_nat i <= EncodedAnswer.span_start ea)%Z <->
     (fst (Token.span tk) <= Answer.span_start answer)%Z).
Proof.
  intros Hs H. apply EncodedAnswer_init_Ok in H as [Hne ->]. simpl.
  set (a := (fun tk => fst (Token.span tk)) <$> context_tokens) in *.
  destruct (bisect_right_sorted a (Answer.span_start answer) Hs) as [Hle Hiff].
  assert (Hla : length a = length context_tokens) by apply length_fmap.
  assert (0 < length context_tokens) by (destruct context_tokens; [done|simpl; lia]).
  split; [lia|].
  intros i tk Hi. pose proof (lookup_lt_Some _ _ _ Hi) as Hlt.
  assert (Ha : a !!! i = fst (Token.span tk)).
  { apply list_lookup_total_correct. unfold a. rewrite list_lookup_fmap, Hi. done. }
  rewrite <- Ha, <- (Hiff i) by lia. lia.
Qed.

(** [EncodedAnswer]'s end: with the context tokens in order of their end
    offsets, [span_end] is the first token ending at or after the answer's
    end: token [i] ends before it exactly when [i < span_end]; it is the
    number of tokens when every token ends before it. *)
Theorem EncodedAnswer_span_end_first_token (answer : Answer.t) (context_tokens : list Token.t)
    (ea : EncodedAnswer.t) :
  Sorted Z.le ((fun tk => snd (Token.span tk)) <$> context_tokens) ->
  EncodedAnswer.init answer context_tokens = QOk ea ->
  (0 <= EncodedAnswer.span_end ea <= Z.of_nat (length context_tokens))%Z /\
  forall i tk, context_tokens !! i = Some tk ->
    ((Z.of_nat i < EncodedAnswer.span_end ea)%Z <->
     (snd (Token.span tk) < Answer.span_end answer)%Z).
Proof.
  intros Hs H. apply EncodedAnswer_init_Ok in H as [Hne ->]. simpl.
  set (a := (fun tk => snd (Token.span tk)) <$> context_tokens) in *.
  destruct (bisect_left_sorted a (Answer.span_end answer) Hs) as [Hle Hiff].
  assert (Hla : length a = length context_tokens) by apply length_fmap.
  split; [lia|].
  intros i tk Hi. pose proof (lookup_lt_Some _ _ _ Hi) as Hlt.
  assert (Ha : a !!! i = snd (Token.span tk)).
  { apply list_lookup_total_correct. unfold a. rewrite list_lookup_fmap, Hi. done. }
  rewrite <- Ha, <- (Hiff i) by lia. lia.
Qed.

Lemma qa_map_Ok {A B} (f : A -> qa_result B) (l : list A) (l' : list B) :
  qa_map f l = QOk l' -> Forall2 (fun x y => f x = QOk y) l l'.
Proof.
  revert l'. induction l as [|x l IH]; intros l' H; simpl in H.
  - injection H as <-. constructor.
  - destruct (f x) as [y|e] eqn:Hf; simpl in H; [|discriminate].
    destruct (qa_map f l) as [ys|e] eqn:Hl; simpl in H; [|discriminate].
    injection H as <-. constructor; [done|]. by apply IH.
Qed.

Lemma qa_map_ok {A B} (f : A -> qa_result B) (l : list A) :
  Forall (fun x => exists y, f x = QOk y) l -> exists l', qa_map f l = QOk l'.
Proof.
  induction 1 as [|x l [y Hy] _ [l' Hl]]; simpl; [eauto|].
  rewrite Hy. simpl. rewrite Hl. simpl. eauto.
Qed.

Lemma qa_map_Err {A B} (f : A -> qa_result B) (l : list A) e :
  qa_map f l = QErr e -> Exists (fun x => f x = QErr e) l.
Proof.
  induction l as [|x l IH]; simpl; [discriminate|].
  destruct (f x) as [y|e'] eqn:Hf; simpl.
  - destruct (qa_map f l) as [ys|e'] eqn:Hl; simpl; [discriminate|].
    intros [= ->]. right. by apply IH.
  - intros [= ->]. by left.
Qed.

Lemma np_index_Ok n k m :
  np_index n k = QOk m -> m < n /\ (Z.of_nat m = k \/ Z.of_nat m = Z.of_nat n + k)%Z.
Proof.
  unfold np_index. case_decide; [intros [= <-]; lia|].
  case_decide; [intros [= <-]; lia|discriminate].
Qed.

Lemma np_index_in_range n k :
  (- Z.of_nat n <= k < Z.of_nat n)%Z <-> exists m, np_index n k = QOk m.
Proof.
  unfold np_index. split.
  - intros Hk. case_decide; [eauto|]. rewrite decide_True by lia. eauto.
  - intros [m Hm]. repeat case_decide; try discriminate; lia.
Qed.

Lemma np_index_Err n k e : np_index n k = QErr e -> e = NumpyIndexError.
Proof. unfold np_index. repeat case_decide; congruence. Qed.

Lemma foldl_set_one_length (v : list Z) (ks : list nat) :
  length (foldl (fun v k => <[k := 1%Z]> v) v ks) = length v.
Proof.
  revert v. induction ks as [|k ks IH]; intros v; cbn [foldl]; [done|].
  rewrite IH. apply length_insert.
Qed.

Lemma foldl_set_one_lookup (v : list Z) (ks : list nat) j :
  foldl (fun v k => <[k := 1%Z]> v) v ks !! j =
    if decide (j ∈ ks /\ j < length v) then Some 1%Z else v !! j.
Proof.
  revert v. induction ks as [|k ks IH]; intros v; cbn [foldl].
  - rewrite decide_False; [done|]. intros [Hj _]. by apply not_elem_of_nil in Hj.
  - rewrite IH, length_insert, list_lookup_insert.
    destruct (decide (j ∈ ks /\ j < length v)) as [Hin|Hout].
    + rewrite decide_True; [done|]. destruct Hin as [Hin Hlt].
      split; [apply elem_of_cons; by right|exact Hlt].
    + destruct (decide (k = j /\ k < length v)) as [[-> Hk]|Hne].
      * rewrite decide_True; [done|]. split; [apply elem_of_cons; by left|done].
      * rewrite decide_False; [done|]. intros [Hj Hlt]. apply elem_of_cons in Hj as [->|Hj].
        -- by apply Hne.
        -- by apply Hout.
Qed.

(** [zeros[idxs] = 1] on a vector of zeros: ones exactly at the positions
    the indices denote. *)
Lemma set_ones_zeros n (idxs : list Z) v :
  set_ones (replicate n 0%Z) idxs = QOk v ->
  length v = n /\
  Forall (fun x => x = 0%Z \/ x = 1%Z) v /\
  forall j, (v !! j = Some 1%Z <-> exists idx, idx ∈ idxs /\ np_index n idx = QOk j).
Proof.
  unfold set_ones. rewrite length_replicate.
  destruct (qa_map (np_index n) idxs) as [ks|e] eqn:Hks; simpl; [|discriminate].
  intros [= <-]. apply qa_map_Ok in Hks.
  split; [by rewrite foldl_set_one_length, length_replicate|].
  split.
  - apply Forall_lookup. intros j x Hx. rewrite foldl_set_one_lookup, length_replicate in Hx.
    case_decide; [injection Hx; auto|].
    apply lookup_replicate in Hx as [-> _]. auto.
  - intros j. rewrite foldl_set_one_lookup, length_replicate. split.
    + case_decide as Hj.
      * intros _. destruct Hj as [Hj _].
        apply list_elem_of_lookup in Hj as [p Hp].
        destruct (Forall2_lookup_r _ _ _ _ _ Hks Hp) as (idx & Hidx & Hf).
        exists idx. split; [by apply list_elem_of_lookup_2 with p|done].
      * intros Hx. apply lookup_replicate in Hx as [? _]. discriminate.
    + intros (idx & Hidx & Hf).
      apply list_elem_of_lookup in Hidx as [p Hp].
      destruct (Forall2_lookup_l _ _ _ _ _ Hks Hp) as (k & Hk & Hf').
      rewrite Hf in Hf'. injection Hf' as <-.
      pose proof (np_index_Ok _ _ _ Hf) as [Hlt _].
      rewrite decide_True; [done|]. split; [by apply list_elem_of_lookup_2 with p|done].
Qed.

Lemma set_ones_Err (v : list Z) (idxs : list Z) e :
  set_ones v idxs = QErr e ->
  e = NumpyIndexError /\
  Exists (fun idx => ~ (- Z.of_nat (length v) <= idx < Z.of_nat (length v))%Z) idxs.
Proof.
  unfold set_ones.
  destruct (qa_map (np_index (length v)) idxs) as [ks|e'] eqn:Hks; simpl; [discriminate|].
  intros [= ->]. apply qa_map_Err in Hks.
  split.
  - apply Exists_exists in Hks as (idx & _ & Hidx). by apply np_index_Err in Hidx.
  - eapply Exists_impl; [exact Hks|]. intros idx Hidx Hin.
    apply np_index_in_range in Hin as [m Hm]. congruence.
Qed.

Lemma set_ones_ok (v : list Z) (idxs : list Z) :
  Forall (fun idx => (- Z.of_nat (length v) <= idx < Z.of_nat (length v))%Z) idxs ->
  exists v', set_ones v idxs = QOk v'.
Proof.
  intros Hin. unfold set_ones.
  destruct (qa_map_ok (np_index (length v)) idxs) as [ks Hks].
  { eapply Forall_impl; [exact Hin|]. intros idx H. by apply np_index_in_range. }
  rewrite Hks. simpl. eauto.
Qed.

(** [bisect_right] of a value below every element is [0], and
    [bisect_left] of a value above every element is the length; neither
    needs the list sorted. *)
Lemma bisect_right_below (a : list Z) x :
  Forall (fun y => (x < y)%Z) a -> bisect_right a x = 0.
Proof.
  intros Ha. unfold bisect_right.
  destruct (bisect_right_loop_spec (length a) a x 0 (length a)) as (H1 & H2 & _); [lia|lia|lia|].
  set (r := bisect_right_loop (length a) a x 0 (length a)) in *.
  destruct (decide (0 < r)) as [Hr|Hr]; [|lia].
  exfalso. pose proof (H2 Hr) as Hle.
  pose proof (Forall_lookup_1 _ _ _ _ Ha (list_lookup_lookup_total_lt a (r - 1) ltac:(lia))).
  cbv beta in *. lia.
Qed.

Lemma bisect_left_above (a : list Z) x :
  Forall (fun y => (y < x)%Z) a -> bisect_left a x = length a.
Proof.
  intros Ha. unfold bisect_left.
  destruct (bisect_left_loop_spec (length a) a x 0 (length a)) as (H1 & _ & H3); [lia|lia|lia|].
  set (r := bisect_left_loop (length a) a x 0 (length a)) in *.
  destruct (decide (r < length a)) as [Hr|Hr]; [|lia].
  exfalso. pose proof (H3 Hr) as Hle.
  pose proof (Forall_lookup_1 _ _ _ _ Ha (list_lookup_lookup_total_lt a r Hr)).
  cbv beta in *. lia.
Qed.

Lemma length_list_ascii_of_string (s : string) :
  length (String.list_ascii_of_string s) = String.length s.
Proof. induction s as [|c s IH]; simpl; congruence. Qed.

Lemma EncodedAnswer_init_ok (answer : Answer.t) (context_tokens : list Token.t) :
  context_tokens <> [] -> exists ea, EncodedAnswer.init answer context_tokens = QOk ea.
Proof. destruct context_tokens; [done|]. intros _. simpl. eauto. Qed.

Lemma EncodedQuestionAnswer_init_Ok qa token_mapping char_mapping context_tokens eqa :
  EncodedQuestionAnswer.init qa token_mapping char_mapping context_tokens = QOk eqa ->
  EncodedQuestionAnswer.question_id eqa = QuestionAnswer.question_id qa /\
  EncodedQuestionAnswer.word_encoding eqa =
    encode_words token_mapping (Processed.tokens (QuestionAnswer.base qa)) /\
  EncodedQuestionAnswer.char_encoding eqa =
    encode_chars char_mapping (Processed.tokens (QuestionAnswer.base qa)) /\
  Forall2 (fun ans ea => EncodedAnswer.init ans context_tokens = QOk ea)
    (QuestionAnswer.answers qa) (EncodedQuestionAnswer.answers eqa).
Proof.
  unfold EncodedQuestionAnswer.init.
  destruct (qa_map _ _) as [eas|e] eqn:He; simpl; [|discriminate].
  intros [= <-]. simpl. split_and!; try done. by apply qa_map_Ok in He.
Qed.

Lemma set_ones_in_range (v : list Z) idxs v' :
  set_ones v idxs = QOk v' ->
  Forall (fun idx => (- Z.of_nat (length v) <= idx < Z.of_nat (length v))%Z) idxs.
Proof.
  unfold set_ones.
  destruct (qa_map (np_index (length v)) idxs) as [ks|e] eqn:Hks; simpl; [|discriminate].
  intros _. apply qa_map_Ok in Hks.
  induction Hks as [|idx k idxs ks Hf _ IH]; constructor; [|done].
  apply np_index_in_range. eauto.
Qed.

Lemma EncodedSample_init_Ok_inv w c eqa s h :
  EncodedSample_init w c eqa = QOk (s, h) ->
  question_id s = EncodedQuestionAnswer.question_id eqa /\
  question_words s = EncodedQuestionAnswer.word_encoding eqa /\
  question_chars s = EncodedQuestionAnswer.char_encoding eqa /\
  context_words s = w /\ context_chars s = c /\
  (h = true <-> EncodedQuestionAnswer.answers eqa <> []) /\
  length (span_starts s) = length w /\ length (span_ends s) = length w /\
  Forall (fun x => x = 0%Z \/ x = 1%Z) (span_starts s) /\
  Forall (fun x => x = 0%Z \/ x = 1%Z) (span_ends s) /\
  (forall j, span_starts s !! j = Some 1%Z <->
     exists ea, ea ∈ EncodedQuestionAnswer.answers eqa /\
                np_index (length w) (EncodedAnswer.span_start ea) = QOk j) /\
  (forall j, span_ends s !! j = Some 1%Z <->
     exists ea, ea ∈ EncodedQuestionAnswer.answers eqa /\
                np_index (length w) (EncodedAnswer.span_end ea) = QOk j).
Proof.
  unfold EncodedSample_init. case_bool_decide as Hh.
  - destruct (set_ones _ (EncodedAnswer.span_start <$> _)) as [st|e] eqn:Hst; simpl; [|discriminate].
    destruct (set_ones _ (EncodedAnswer.span_end <$> _)) as [en|e] eqn:Hen; simpl; [|discriminate].
    intros [= <- <-]. simpl.
    apply set_ones_zeros in Hst as (Hst1 & Hst2 & Hst3).
    apply set_ones_zeros in Hen as (Hen1 & Hen2 & Hen3).
    split_and!; try done.
    + intros j. rewrite Hst3. split.
      * intros (idx & Hidx & Hj). apply list_elem_of_fmap in Hidx as (ea & -> & Hea). eauto.
      * intros (ea & Hea & Hj). exists (EncodedAnswer.span_start ea).
        split; [by apply list_elem_of_fmap_2|done].
    + intros j. rewrite Hen3. split.
      * intros (idx & Hidx & Hj). apply list_elem_of_fmap in Hidx as (ea & -> & Hea). eauto.
      * intros (ea & Hea & Hj). exists (EncodedAnswer.span_end ea).
        split; [by apply list_elem_of_fmap_2|done].
  - assert (Hnil : EncodedQuestionAnswer.answers eqa = []).
    { destruct (EncodedQuestionAnswer.answers eqa); [done|]. discriminate Hh. }
    intros [= <- <-]. simpl. rewrite Hnil.
    split_and!; try done; try (by rewrite length_replicate); try (apply Forall_replicate; auto).
    all: intros j; split; [intros Hj; apply lookup_replicate in Hj as [? _]; discriminate|].
    all: intros (ea & Hea & _); by apply not_elem_of_nil in Hea.
Qed.

Lemma np_index_Ok_iff n k j :
  np_index n k = QOk j <-> j < n /\ (Z.of_nat j = k \/ Z.of_nat j = Z.of_nat n + k)%Z.
Proof.
  split; [apply np_index_Ok|]. intros [Hj [Hk|Hk]]; unfold np_index.
  - rewrite decide_True by lia. f_equal. lia.
  - destruct (decide (0 <= k < Z.of_nat n)%Z); [f_equal; lia|].
    rewrite decide_True by lia. f_equal. lia.
Qed.

Lemma EncodedSample_init_Ok_in_range w c eqa s h :
  EncodedSample_init w c eqa = QOk (s, h) ->
  Forall (fun ea =>
    (- Z.of_nat (length w) <= EncodedAnswer.span_start ea < Z.of_nat (length w))%Z /\
    (- Z.of_nat (length w) <= EncodedAnswer.span_end ea < Z.of_nat (length w))%Z)
    (EncodedQuestionAnswer.answers eqa).
Proof.
  unfold EncodedSample_init. case_bool_decide as Hh.
  - destruct (set_ones _ (EncodedAnswer.span_start <$> _)) as [st|e] eqn:Hst; simpl; [|discriminate].
    destruct (set_ones _ (EncodedAnswer.span_end <$> _)) as [en|e] eqn:Hen; simpl; [|discriminate].
    intros _. apply set_ones_in_range in Hst, Hen. rewrite length_replicate in Hst, Hen.
    apply (Forall_fmap EncodedAnswer.span_start) in Hst.
    apply (Forall_fmap EncodedAnswer.span_end) in Hen. apply Forall_and. by split.
  - intros _. assert (Hnil : EncodedQuestionAnswer.answers eqa = []).
    { destruct (EncodedQuestionAnswer.answers eqa); [done|]. discriminate Hh. }
    rewrite Hnil. constructor.
Qed.

Lemma EncodedSample_init_Err w c eqa e :
  EncodedSample_init w c eqa = QErr e ->
  e = NumpyIndexError /\
  Exists (fun ea =>
    ~ (- Z.of_nat (length w) <= EncodedAnswer.span_start ea < Z.of_nat (length w))%Z \/
    ~ (- Z.of_nat (length w) <= EncodedAnswer.span_end ea < Z.of_nat (length w))%Z)
    (EncodedQuestionAnswer.answers eqa).
Proof.
  unfold EncodedSample_init. case_bool_decide as Hh; [|discriminate].
  destruct (set_ones _ (EncodedAnswer.span_start <$> _)) as [st|e'] eqn:Hst; simpl.
  - destruct (set_ones _ (EncodedAnswer.span_end <$> _)) as [en|e'] eqn:Hen; simpl; [discriminate|].
    intros [= <-]. apply set_ones_Err in Hen as [-> Hex]. rewrite length_replicate in Hex.
    split; [done|]. apply (Exists_fmap EncodedAnswer.span_end) in Hex.
    eapply Exists_impl; [exact Hex|]. simpl. tauto.
  - intros [= <-]. apply set_ones_Err in Hst as [-> Hex]. rewrite length_replicate in Hex.
    split; [done|]. apply (Exists_fmap EncodedAnswer.span_start) in Hex.
    eapply Exists_impl; [exact Hex|]. simpl. tauto.
Qed.

Lemma Processed_init_Ok process tokenize text p :
  Processed.init process tokenize text = QOk p ->
  p = Processed.mk text (process text) (tokenize (process text)) /\
  process text <> EmptyString /\ tokenize (process text) <> [].
Proof.
  unfold Processed.init.
  case_decide as H1; [|discriminate]. case_decide as H2; [|discriminate].
  intros [= <-]. split_and!; [done| |].
  - intros Hs. rewrite Hs in H1. simpl in H1. lia.
  - intros Ht. rewrite Ht in H2. simpl in H2. lia.
Qed.

Ltac solve_sorted_Z :=
  repeat first [ apply Sorted_cons | apply Sorted_nil | apply HdRel_cons
               | apply HdRel_nil | lia ].

Lemma EncodedAnswer_span_start_last_token_witness :
  Sorted Z.le ((fun tk => fst (Token.span tk)) <$> example_context_tokens) /\
  EncodedAnswer.init example_answer example_context_tokens = QOk (EncodedAnswer.mk 1 2) /\
  (-1 <= EncodedAnswer.span_start (EncodedAnswer.mk 1 2) <
     Z.of_nat (length example_context_tokens))%Z /\
  (forall i tk, example_context_tokens !! i = Some tk ->
    ((Z.of_nat i <= EncodedAnswer.span_start (EncodedAnswer.mk 1 2))%Z <->
     (fst (Token.span tk) <= Answer.span_start example_answer)%Z)).
Proof.
  assert (Hs : Sorted Z.le ((fun tk => fst (Token.span tk)) <$> example_context_tokens)).
  { simpl. solve_sorted_Z. }
  assert (He : EncodedAnswer.init example_answer example_context_tokens
               = QOk (EncodedAnswer.mk 1 2)) by (vm_compute; reflexivity).
  split; [exact Hs|]. split; [exact He|].
  exact (EncodedAnswer_span_start_last_token _ _ _ Hs He).
Defined.

Lemma EncodedAnswer_span_end_first_token_witness :
  Sorted Z.le ((fun tk => snd (Token.span tk)) <$> example_context_tokens) /\
  EncodedAnswer.init example_answer example_context_tokens = QOk (EncodedAnswer.mk 1 2) /\
  (0 <= EncodedAnswer.span_end (EncodedAnswer.mk 1 2) <=
     Z.of_nat (length example_context_tokens))%Z /\
  (forall i tk, example_context_tokens !! i = Some tk ->
    ((Z.of_nat i < EncodedAnswer.span_end (EncodedAnswer.mk 1 2))%Z <->
     (snd (Token.span tk) < Answer.span_end example_answer)%Z)).
Proof.
  assert (Hs : Sorted Z.le ((fun tk => snd (Token.span tk)) <$> example_context_tokens)).
  { simpl. solve_sorted_Z. }
  assert (He : EncodedAnswer.init example_answer example_context_tokens
               = QOk (EncodedAnswer.mk 1 2)) by (vm_compute; reflexivity).
  split; [exact Hs|]. split; [exact He|].
  exact (EncodedAnswer_span_end_first_token _ _ _ Hs He).
Defined.

(** [EncodedSample.__init__] copies the encodings it is given, makes
    [span_starts] and [span_ends] of the context's length, sets
    [has_answer] exactly when the question has an answer, and leaves only
    zeros and ones in the two span vectors. *)
Theorem EncodedSample_init_shape w c eqa s h :
  EncodedSample_init w c eqa = QOk (s, h) ->
  spans_aligned s /\ context_words s = w /\ context_chars s = c /\
  question_id s = EncodedQuestionAnswer.question_id eqa /\
  question_words s = EncodedQuestionAnswer.word_encoding eqa /\
  question_chars s = EncodedQuestionAnswer.char_encoding eqa /\
  (h = true <-> EncodedQuestionAnswer.answers eqa <> []) /\
  Forall (fun x => x = 0%Z \/ x = 1%Z) (span_starts s) /\
  Forall (fun x => x = 0%Z \/ x = 1%Z) (span_ends s).
Proof.
  intros H.
  apply EncodedSample_init_Ok_inv in H
    as (Hid & Hqw & Hqc & Hcw & Hcc & Hh & Hls & Hle & Hs & He & _).
  unfold spans_aligned. rewrite Hcw. tauto.
Qed.

Lemma EncodedSample_init_shape_witness :
  EncodedSample_init [2; 3; 4]%Z [[1]; [2]; [3]]%Z
    (EncodedQuestionAnswer.mk "q" [5]%Z [[6]]%Z [EncodedAnswer.mk 1 2])
  = QOk (mk_sample "q" [5]%Z [[6]]%Z [2; 3; 4]%Z [[1]; [2]; [3]]%Z [0; 1; 0]%Z [0; 0; 1]%Z,
         true) /\
  let s := mk_sample "q" [5]%Z [[6]]%Z [2; 3; 4]%Z [[1]; [2]; [3]]%Z [0; 1; 0]%Z [0; 0; 1]%Z in
  spans_aligned s /\ context_words s = [2; 3; 4]%Z /\ context_chars s = [[1]; [2]; [3]]%Z /\
  question_id s = "q" /\ question_words s = [5]%Z /\ question_chars s = [[6]]%Z /\
  (true = true <-> [EncodedAnswer.mk 1 2] <> []) /\
  Forall (fun x => x = 0%Z \/ x = 1%Z) (span_starts s) /\
  Forall (fun x => x = 0%Z \/ x = 1%Z) (span_ends s).
Proof.
  assert (H : EncodedSample_init [2; 3; 4]%Z [[1]; [2]; [3]]%Z
    (EncodedQuestionAnswer.mk "q" [5]%Z [[6]]%Z [EncodedAnswer.mk 1 2])
  = QOk (mk_sample "q" [5]%Z [[6]]%Z [2; 3; 4]%Z [[1]; [2]; [3]]%Z [0; 1; 0]%Z [0; 0; 1]%Z,
         true)) by (vm_compute; reflexivity).
  split; [exact H|]. exact (EncodedSample_init_shape _ _ _ _ _ H).
Defined.

(** [span_starts[starts] = 1] with numpy's indexing: position [j] of
    [span_starts] holds 1 exactly when some answer's [span_start] denotes
    it, either as [j] itself or, negative, as [j - len(context)]; the same
    for [span_ends].  Every other position holds 0. *)
Theorem EncodedSample_init_span_ones w c eqa s h :
  EncodedSample_init w c eqa = QOk (s, h) ->
  forall j,
  (span_starts s !! j = Some 1%Z <->
     j < length w /\
     exists ea, ea ∈ EncodedQuestionAnswer.answers eqa /\
       (Z.of_nat j = EncodedAnswer.span_start ea \/
        Z.of_nat j = Z.of_nat (length w) + EncodedAnswer.span_start ea)%Z) /\
  (span_ends s !! j = Some 1%Z <->
     j < length w /\
     exists ea, ea ∈ EncodedQuestionAnswer.answers eqa /\
       (Z.of_nat j = EncodedAnswer.span_end ea \/
        Z.of_nat j = Z.of_nat (length w) + EncodedAnswer.span_end ea)%Z) /\
  (j < length w -> span_starts s !! j <> Some 1%Z -> span_starts s !! j = Some 0%Z) /\
  (j < length w -> span_ends s !! j <> Some 1%Z -> span_ends s !! j = Some 0%Z).
Proof.
  intros H.
  apply EncodedSample_init_Ok_inv in H
    as (_ & _ & _ & _ & _ & _ & Hls & Hle & Hs & He & Hs1 & He1).
  intros j. split_and!.
  - rewrite Hs1. split.
    + intros (ea & Hea & Hj). apply np_index_Ok_iff in Hj as [Hj Hk]. eauto.
    + intros (Hj & ea & Hea & Hk). exists ea. split; [done|]. by apply np_index_Ok_iff.
  - rewrite He1. split.
    + intros (ea & Hea & Hj). apply np_index_Ok_iff in Hj as [Hj Hk]. eauto.
    + intros (Hj & ea & Hea & Hk). exists ea. split; [done|]. by apply np_index_Ok_iff.
  - intros Hj Hne. rewrite <- Hls in Hj.
    destruct (lookup_lt_is_Some_2 _ _ Hj) as [x Hx]. rewrite Hx in Hne |- *.
    pose proof (Forall_lookup_1 _ _ _ _ Hs Hx) as [->| ->]; [done|done].
  - intros Hj Hne. rewrite <- Hle in Hj.
    destruct (lookup_lt_is_Some_2 _ _ Hj) as [x Hx]. rewrite Hx in Hne |- *.
    pose proof (Forall_lookup_1 _ _ _ _ He Hx) as [->| ->]; [done|done].
Qed.

Lemma EncodedSample_init_span_ones_witness :
  EncodedSample_init [2; 3; 4]%Z [[1]; [2]; [3]]%Z
    (EncodedQuestionAnswer.mk "q" [5]%Z [[6]]%Z [EncodedAnswer.mk (-1) 1])
  = QOk (mk_sample "q" [5]%Z [[6]]%Z [2; 3; 4]%Z [[1]; [2]; [3]]%Z [0; 0; 1]%Z [0; 1; 0]%Z,
         true) /\
  (span_starts (mk_sample "q" [5]%Z [[6]]%Z [2; 3; 4]%Z [[1]; [2]; [3]]%Z
                  [0; 0; 1]%Z [0; 1; 0]%Z) !! 2 = Some 1%Z <->
   2 < length [2; 3; 4]%Z /\
   exists ea, ea ∈ [EncodedAnswer.mk (-1) 1] /\
     (Z.of_nat 2 = EncodedAnswer.span_start ea \/
      Z.of_nat 2 = Z.of_nat (length [2; 3; 4]%Z) + EncodedAnswer.span_start ea)%Z).
Proof.
  assert (H : EncodedSample_init [2; 3; 4]%Z [[1]; [2]; [3]]%Z
    (EncodedQuestionAnswer.mk "q" [5]%Z [[6]]%Z [EncodedAnswer.mk (-1) 1])
  = QOk (mk_sample "q" [5]%Z [[6]]%Z [2; 3; 4]%Z [[1]; [2]; [3]]%Z [0; 0; 1]%Z [0; 1; 0]%Z,
         true)) by (vm_compute; reflexivity).
  split; [exact H|]. exact (proj1 (EncodedSample_init_span_ones _ _ _ _ _ H 2)).
Defined.

(** [EncodedSample.__init__] raises exactly when some answer's
    [span_start] or [span_end] is out of numpy's bounds for the context,
    [[-len(context), len(context))], and the error is then always numpy's
    index error. *)
Theorem EncodedSample_init_raises w c eqa :
  ((exists e, EncodedSample_init w c eqa = QErr e) <->
   Exists (fun ea =>
     ~ (- Z.of_nat (length w) <= EncodedAnswer.span_start ea < Z.of_nat (length w))%Z \/
     ~ (- Z.of_nat (length w) <= EncodedAnswer.span_end ea < Z.of_nat (length w))%Z)
     (EncodedQuestionAnswer.answers eqa)) /\
  (forall e, EncodedSample_init w c eqa = QErr e -> e = NumpyIndexError).
Proof.
  split.
  - split.
    + intros [e He]. by apply EncodedSample_init_Err in He as [_ Hex].
    + intros Hex. destruct (EncodedSample_init w c eqa) as [[s h]|e] eqn:Hi; [|eauto].
      exfalso. apply EncodedSample_init_Ok_in_range in Hi.
      apply Exists_exists in Hex as (ea & Hea & Hout).
      rewrite Forall_forall in Hi. pose proof (Hi ea Hea). tauto.
  - intros e He. by apply EncodedSample_init_Err in He as [-> _].
Qed.

(** An answer that starts before every context token gets [span_start]
    [-1] from [EncodedAnswer] ([bisect_right] gives 0), and numpy reads
    that index from the end: the sample marks the last context token as an
    answer start. *)
Theorem EncodedSample_start_before_context_marks_last qa token_mapping char_mapping
    context_tokens eqa s h :
  EncodedQuestionAnswer.init qa token_mapping char_mapping context_tokens = QOk eqa ->
  Exists (fun ans => Forall (fun tk => (Answer.span_start ans < fst (Token.span tk))%Z)
                       context_tokens)
    (QuestionAnswer.answers qa) ->
  EncodedSample_init (encode_words token_mapping context_tokens)
    (encode_chars char_mapping context_tokens) eqa = QOk (s, h) ->
  span_starts s !! (length context_tokens - 1) = Some 1%Z.
Proof.
  intros Hq Hex Hs.
  apply EncodedQuestionAnswer_init_Ok in Hq as (_ & _ & _ & Hans).
  apply Exists_exists in Hex as (ans & Hin & Hbelow).
  apply list_elem_of_lookup in Hin as [p Hp].
  destruct (Forall2_lookup_l _ _ _ _ _ Hans Hp) as (ea & Hea & Hinit).
  apply EncodedAnswer_init_Ok in Hinit as [Hne Hea_eq].
  rewrite bisect_right_below in Hea_eq.
  2:{ apply (Forall_fmap (fun tk => fst (Token.span tk))). exact Hbelow. }
  apply EncodedSample_init_Ok_inv in Hs as (_ & _ & _ & _ & _ & _ & _ & _ & _ & _ & Hs1 & _).
  apply Hs1. exists ea. split; [by apply list_elem_of_lookup_2 with p|].
  unfold encode_words. rewrite length_fmap.
  assert (0 < length context_tokens) by (destruct context_tokens; [done|simpl; lia]).
  apply np_index_Ok_iff. rewrite Hea_eq. simpl. lia.
Qed.

Lemma EncodedSample_start_before_context_marks_last_witness :
  EncodedQuestionAnswer.init example_qa example_token_mapping example_char_mapping
    example_context_tokens =
  QOk (EncodedQuestionAnswer.mk "q1" [3]%Z [[2; 3; 4]]%Z
         [EncodedAnswer.mk 1 2; EncodedAnswer.mk (-1) 0]) /\
  Exists (fun ans => Forall (fun tk => (Answer.span_start ans < fst (Token.span tk))%Z)
                       example_context_tokens)
    (QuestionAnswer.answers example_qa) /\
  EncodedSample_init (encode_words example_token_mapping example_context_tokens)
    (encode_chars example_char_mapping example_context_tokens)
    (EncodedQuestionAnswer.mk "q1" [3]%Z [[2; 3; 4]]%Z
       [EncodedAnswer.mk 1 2; EncodedAnswer.mk (-1) 0]) =
  QOk (mk_sample "q1" [3]%Z [[2; 3; 4]]%Z [2; 3; 4]%Z [[1; 1; 3]; [2; 3; 4]; [1; 1; 1]]%Z
         [0; 1; 1]%Z [1; 0; 1]%Z, true) /\
  span_starts (mk_sample "q1" [3]%Z [[2; 3; 4]]%Z [2; 3; 4]%Z
                 [[1; 1; 3]; [2; 3; 4]; [1; 1; 1]]%Z [0; 1; 1]%Z [1; 0; 1]%Z)
    !! (length example_context_tokens - 1) = Some 1%Z.
Proof.
  assert (Hq : EncodedQuestionAnswer.init example_qa example_token_mapping
                 example_char_mapping example_context_tokens =
    QOk (EncodedQuestionAnswer.mk "q1" [3]%Z [[2; 3; 4]]%Z
           [EncodedAnswer.mk 1 2; EncodedAnswer.mk (-1) 0])) by (vm_compute; reflexivity).
  assert (Hex : Exists (fun ans => Forall (fun tk => (Answer.span_start ans < fst (Token.span tk))%Z)
                       example_context_tokens)
    (QuestionAnswer.answers example_qa)).
  { right. left. repeat constructor; simpl; lia. }
  assert (Hs : EncodedSample_init (encode_words example_token_mapping example_context_tokens)
    (encode_chars example_char_mapping example_context_tokens)
    (EncodedQuestionAnswer.mk "q1" [3]%Z [[2; 3; 4]]%Z
       [EncodedAnswer.mk 1 2; EncodedAnswer.mk (-1) 0]) =
    QOk (mk_sample "q1" [3]%Z [[2; 3; 4]]%Z [2; 3; 4]%Z [[1; 1; 3]; [2; 3; 4]; [1; 1; 1]]%Z
           [0; 1; 1]%Z [1; 0; 1]%Z, true)) by (vm_compute; reflexivity).
  split; [exact Hq|]. split; [exact Hex|]. split; [exact Hs|].
  exact (EncodedSample_start_before_context_marks_last _ _ _ _ _ _ _ Hq Hex Hs).
Defined.

(** An answer that ends after every context token gets [span_end] equal
    to the number of context tokens ([bisect_left] finds no token ending at
    or after it), one past the last index: [EncodedSample.__init__] then
    raises numpy's index error. *)
Theorem EncodedSample_end_after_context_raises qa token_mapping char_mapping
    context_tokens eqa :
  EncodedQuestionAnswer.init qa token_mapping char_mapping context_tokens = QOk eqa ->
  Exists (fun ans => Forall (fun tk => (snd (Token.span tk) < Answer.span_end ans)%Z)
                       context_tokens)
    (QuestionAnswer.answers qa) ->
  EncodedSample_init (encode_words token_mapping context_tokens)
    (encode_chars char_mapping context_tokens) eqa = QErr NumpyIndexError.
Proof.
  intros Hq Hex.
  apply EncodedQuestionAnswer_init_Ok in Hq as (_ & _ & _ & Hans).
  apply Exists_exists in Hex as (ans & Hin & Habove).
  apply list_elem_of_lookup in Hin as [p Hp].
  destruct (Forall2_lookup_l _ _ _ _ _ Hans Hp) as (ea & Hea & Hinit).
  apply EncodedAnswer_init_Ok in Hinit as [Hne Hea_eq].
  rewrite bisect_left_above, length_fmap in Hea_eq.
  2:{ apply (Forall_fmap (fun tk => snd (Token.span tk))). exact Habove. }
  destruct (EncodedSample_init _ _ eqa) as [[s h]|e] eqn:Hi.
  - exfalso. apply EncodedSample_init_Ok_in_range in Hi.
    pose proof (Forall_lookup_1 _ _ _ _ Hi Hea) as [_ Hend].
    unfold encode_words in Hend. rewrite length_fmap, Hea_eq in Hend. simpl in Hend. lia.
  - by apply EncodedSample_init_Err in Hi as [-> _].
Qed.

Lemma EncodedSample_end_after_context_raises_witness :
  EncodedQuestionAnswer.init example_late_qa example_token_mapping example_char_mapping
    example_context_tokens =
  QOk (EncodedQuestionAnswer.mk "q2" [4]%Z [[1; 1; 1]]%Z [EncodedAnswer.mk 2 3]) /\
  Exists (fun ans => Forall (fun tk => (snd (Token.span tk) < Answer.span_end ans)%Z)
                       example_context_tokens)
    (QuestionAnswer.answers example_late_qa) /\
  EncodedSample_init (encode_words example_token_mapping example_context_tokens)
    (encode_chars example_char_mapping example_context_tokens)
    (EncodedQuestionAnswer.mk "q2" [4]%Z [[1; 1; 1]]%Z [EncodedAnswer.mk 2 3])
  = QErr NumpyIndexError.
Proof.
  assert (Hq : EncodedQuestionAnswer.init example_late_qa example_token_mapping
                 example_char_mapping example_context_tokens =
    QOk (EncodedQuestionAnswer.mk "q2" [4]%Z [[1; 1; 1]]%Z [EncodedAnswer.mk 2 3]))
    by (vm_compute; reflexivity).
  assert (Hex : Exists (fun ans => Forall (fun tk => (snd (Token.span tk) < Answer.span_end ans)%Z)
                       example_context_tokens)
    (QuestionAnswer.answers example_late_qa)).
  { left. repeat constructor; simpl; lia. }
  split; [exact Hq|]. split; [exact Hex|].
  exact (EncodedSample_end_after_context_raises _ _ _ _ _ Hq Hex).
Defined.

Lemma ContextQuestionAnswer_init_Ok text qas process tokenize ctx :
  ContextQuestionAnswer.init text qas process tokenize = QOk ctx ->
  ContextQuestionAnswer.qas ctx = qas /\
  Processed.tokens (ContextQuestionAnswer.base ctx) <> [].
Proof.
  unfold ContextQuestionAnswer.init.
  destruct (Processed.init process tokenize text) as [p|e] eqn:Hp; simpl; [|discriminate].
  intros [= <-]. apply Processed_init_Ok in Hp as (-> & _ & Ht). done.
Qed.

Lemma QuestionAnswer_init_Ok question_id text answers process tokenize qa :
  QuestionAnswer.init question_id text answers process tokenize = QOk qa ->
  QuestionAnswer.question_id qa = question_id /\ QuestionAnswer.answers qa = answers /\
  Processed.tokens (QuestionAnswer.base qa) <> [].
Proof.
  unfold QuestionAnswer.init.
  destruct (Processed.init process tokenize text) as [p|e] eqn:Hp; simpl; [|discriminate].
  intros [= <-]. apply Processed_init_Ok in Hp as (-> & _ & Ht). done.
Qed.

Lemma EncodedContextQuestionAnswer_init_Ok ctx token_mapping char_mapping ecqa :
  EncodedContextQuestionAnswer.init ctx token_mapping char_mapping = QOk ecqa ->
  EncodedContextQuestionAnswer.word_encoding ecqa =
    encode_words token_mapping (Processed.tokens (ContextQuestionAnswer.base ctx)) /\
  EncodedContextQuestionAnswer.char_encoding ecqa =
    encode_chars char_mapping (Processed.tokens (ContextQuestionAnswer.base ctx)) /\
  Forall2 (fun qa eqa => EncodedQuestionAnswer.init qa token_mapping char_mapping
                           (Processed.tokens (ContextQuestionAnswer.base ctx)) = QOk eqa)
    (ContextQuestionAnswer.qas ctx) (EncodedContextQuestionAnswer.qas ecqa).
Proof.
  unfold EncodedContextQuestionAnswer.init.
  destruct (qa_map _ _) as [eqas|e] eqn:He; simpl; [|discriminate].
  intros [= <-]. simpl. split_and!; try done. by apply qa_map_Ok in He.
Qed.

(** Encoding a context built by [ContextQuestionAnswer.__init__] never
    raises: its assertion guarantees a context token, so the unpacking in
    [EncodedAnswer] always succeeds.  The encoding has one encoded question
    per question, each encoded against the context's tokens. *)
Theorem EncodedContextQuestionAnswer_init_ok text qas process tokenize ctx
    token_mapping char_mapping :
  ContextQuestionAnswer.init text qas process tokenize = QOk ctx ->
  exists ecqa,
    EncodedContextQuestionAnswer.init ctx token_mapping char_mapping = QOk ecqa /\
    EncodedContextQuestionAnswer.word_encoding ecqa =
      encode_words token_mapping (Processed.tokens (ContextQuestionAnswer.base ctx)) /\
    EncodedContextQuestionAnswer.char_encoding ecqa =
      encode_chars char_mapping (Processed.tokens (ContextQuestionAnswer.base ctx)) /\
    Forall2 (fun qa eqa => EncodedQuestionAnswer.init qa token_mapping char_mapping
                             (Processed.tokens (ContextQuestionAnswer.base ctx)) = QOk eqa)
      qas (EncodedContextQuestionAnswer.qas ecqa).
Proof.
  intros Hc. apply ContextQuestionAnswer_init_Ok in Hc as [Hqas Hne].
  set (toks := Processed.tokens (ContextQuestionAnswer.base ctx)) in *.
  destruct (qa_map_ok (fun qa => EncodedQuestionAnswer.init qa token_mapping char_mapping toks)
              (ContextQuestionAnswer.qas ctx)) as [eqas Heqas].
  { apply Forall_forall. intros qa _. unfold EncodedQuestionAnswer.init.
    destruct (qa_map_ok (fun ans => EncodedAnswer.init ans toks) (QuestionAnswer.answers qa))
      as [eas Heas].
    { apply Forall_forall. intros ans _. by apply EncodedAnswer_init_ok. }
    rewrite Heas. simpl. eauto. }
  exists (EncodedContextQuestionAnswer.mk (encode_words token_mapping toks)
            (encode_chars char_mapping toks) eqas).
  assert (Hi : EncodedContextQuestionAnswer.init ctx token_mapping char_mapping =
    QOk (EncodedContextQuestionAnswer.mk (encode_words token_mapping toks)
           (encode_chars char_mapping toks) eqas)).
  { unfold EncodedContextQuestionAnswer.init. fold toks. rewrite Heqas. done. }
  split; [exact Hi|].
  apply EncodedContextQuestionAnswer_init_Ok in Hi as (Hw & Hch & Hf).
  rewrite <- Hqas. auto.
Qed.

Lemma EncodedContextQuestionAnswer_init_ok_witness :
  ContextQuestionAnswer.init "the red fox" [example_qa] (fun t => t) example_tokenize =
    QOk (ContextQuestionAnswer.mk [example_qa]
           (Processed.mk "the red fox" "the red fox" (example_tokenize "the red fox"))) /\
  exists ecqa,
    EncodedContextQuestionAnswer.init
      (ContextQuestionAnswer.mk [example_qa]
         (Processed.mk "the red fox" "the red fox" (example_tokenize "the red fox")))
      example_token_mapping example_char_mapping = QOk ecqa /\
    EncodedContextQuestionAnswer.word_encoding ecqa =
      encode_words example_token_mapping (example_tokenize "the red fox") /\
    EncodedContextQuestionAnswer.char_encoding ecqa =
      encode_chars example_char_mapping (example_tokenize "the red fox") /\
    Forall2 (fun qa eqa => EncodedQuestionAnswer.init qa example_token_mapping
                             example_char_mapping (example_tokenize "the red fox") = QOk eqa)
      [example_qa] (EncodedContextQuestionAnswer.qas ecqa).
Proof.
  assert (H : ContextQuestionAnswer.init "the red fox" [example_qa] (fun t => t)
                example_tokenize =
    QOk (ContextQuestionAnswer.mk [example_qa]
           (Processed.mk "the red fox" "the red fox" (example_tokenize "the red fox"))))
    by (vm_compute; reflexivity).
  split; [exact H|].
  exact (EncodedContextQuestionAnswer_init_ok _ _ _ _ _ example_token_mapping
           example_char_mapping H).
Defined.

Lemma encoded_sample_well_formed text qas process tokenize ctx token_mapping
    char_mapping ecqa eqa s h :
  ContextQuestionAnswer.init text qas process tokenize = QOk ctx ->
  Forall (fun qa => exists question_id qtext answers,
            QuestionAnswer.init question_id qtext answers process tokenize = QOk qa) qas ->
  EncodedContextQuestionAnswer.init ctx token_mapping char_mapping = QOk ecqa ->
  eqa ∈ EncodedContextQuestionAnswer.qas ecqa ->
  EncodedSample_init (EncodedContextQuestionAnswer.word_encoding ecqa)
    (EncodedContextQuestionAnswer.char_encoding ecqa) eqa = QOk (s, h) ->
  well_formed_sample s.
Proof.
  intros Hc Hqas He Hin Hs.
  apply ContextQuestionAnswer_init_Ok in Hc as [Hcq Hcne].
  apply EncodedContextQuestionAnswer_init_Ok in He as (Hw & Hch & Hf).
  rewrite Hcq in Hf.
  apply list_elem_of_lookup in Hin as [p Hp].
  destruct (Forall2_lookup_r _ _ _ _ _ Hf Hp) as (qa & Hqa & Hq).
  pose proof (Forall_lookup_1 _ _ _ _ Hqas Hqa) as (qid & qtext & answers & Hqi).
  apply QuestionAnswer_init_Ok in Hqi as (_ & _ & Hqne).
  apply EncodedQuestionAnswer_init_Ok in Hq as (_ & Hqw & Hqc & _).
  apply EncodedSample_init_Ok_inv in Hs
    as (_ & Hsw & Hsc & Hcw & Hcc & _ & Hls & Hle & _).
  unfold well_formed_sample, spans_aligned.
  rewrite Hsw, Hsc, Hcw, Hcc, Hqw, Hqc, Hw, Hch in *.
  unfold encode_words, encode_chars. rewrite !length_fmap.
  split_and!; try done.
  - intros Hnil. apply fmap_nil_inv in Hnil. done.
  - intros Hnil. apply fmap_nil_inv in Hnil. done.
  - unfold encode_words in Hls. by rewrite length_fmap in Hls.
  - unfold encode_words in Hle. by rewrite length_fmap in Hle.
Qed.

(** The samples [EncodedSample] builds from an encoded context and its
    encoded questions, with the context and the questions built by their
    constructors, are well formed for the batcher: the question and the
    context have at least one token, one character row per token, and span
    vectors of the context's length. *)
Theorem EncodedSample_well_formed text qas process tokenize ctx token_mapping
    char_mapping ecqa eqa s h :
  ContextQuestionAnswer.init text qas process tokenize = QOk ctx ->
  Forall (fun qa => exists question_id qtext answers,
            QuestionAnswer.init question_id qtext answers process tokenize = QOk qa) qas ->
  EncodedContextQuestionAnswer.init ctx token_mapping char_mapping = QOk ecqa ->
  eqa ∈ EncodedContextQuestionAnswer.qas ecqa ->
  EncodedSample_init (EncodedContextQuestionAnswer.word_encoding ecqa)
    (EncodedContextQuestionAnswer.char_encoding ecqa) eqa = QOk (s, h) ->
  well_formed_sample s.
Proof. apply encoded_sample_well_formed. Qed.

Lemma EncodedSample_well_formed_witness :
  let ctx := ContextQuestionAnswer.mk [example_qa]
               (Processed.mk "the red fox" "the red fox" (example_tokenize "the red fox")) in
  let ecqa := EncodedContextQuestionAnswer.mk [1]%Z [[1; 1; 3; 1; 2; 3; 4; 1; 1; 1; 1]]%Z
                [EncodedQuestionAnswer.mk "q1" [3]%Z [[2; 3; 4]]%Z
                   [EncodedAnswer.mk 0 0; EncodedAnswer.mk (-1) 0]] in
  let eqa := EncodedQuestionAnswer.mk "q1" [3]%Z [[2; 3; 4]]%Z
               [EncodedAnswer.mk 0 0; EncodedAnswer.mk (-1) 0] in
  let s := mk_sample "q1" [3]%Z [[2; 3; 4]]%Z [1]%Z [[1; 1; 3; 1; 2; 3; 4; 1; 1; 1; 1]]%Z
             [1]%Z [1]%Z in
  ContextQuestionAnswer.init "the red fox" [example_qa] (fun t => t) example_tokenize = QOk ctx /\
  Forall (fun qa => exists question_id qtext answers,
            QuestionAnswer.init question_id qtext answers (fun t => t) example_tokenize = QOk qa)
    [example_qa] /\
  EncodedContextQuestionAnswer.init ctx example_token_mapping example_char_mapping = QOk ecqa /\
  eqa ∈ EncodedContextQuestionAnswer.qas ecqa /\
  EncodedSample_init (EncodedContextQuestionAnswer.word_encoding ecqa)
    (EncodedContextQuestionAnswer.char_encoding ecqa) eqa = QOk (s, true) /\
  well_formed_sample s.
Proof.
  intros ctx ecqa eqa s.
  assert (Hc : ContextQuestionAnswer.init "the red fox" [example_qa] (fun t => t)
                 example_tokenize = QOk ctx) by (vm_compute; reflexivity).
  assert (Hq : Forall (fun qa => exists question_id qtext answers,
            QuestionAnswer.init question_id qtext answers (fun t => t) example_tokenize = QOk qa)
    [example_qa]).
  { constructor; [|constructor].
    exists "q1", "red", [example_answer; example_early_answer]. vm_compute. reflexivity. }
  assert (He : EncodedContextQuestionAnswer.init ctx example_token_mapping
                 example_char_mapping = QOk ecqa) by (vm_compute; reflexivity).
  assert (Hin : eqa ∈ EncodedContextQuestionAnswer.qas ecqa) by (simpl; left).
  assert (Hs : EncodedSample_init (EncodedContextQuestionAnswer.word_encoding ecqa)
    (EncodedContextQuestionAnswer.char_encoding ecqa) eqa = QOk (s, true))
    by (vm_compute; reflexivity).
  split; [exact Hc|]. split; [exact Hq|]. split; [exact He|]. split; [exact Hin|].
  split; [exact Hs|].
  exact (EncodedSample_well_formed _ _ _ _ _ _ _ _ _ _ _ Hc Hq He Hin Hs).
Defined.

(** Encoding and batching compose: a batch of two or more samples that
    [EncodedSample] built from encoded contexts, each context built by
    [ContextQuestionAnswer.__init__] and its questions by
    [QuestionAnswer.__init__], never makes [collate_batch] raise, whatever
    the caps. *)
Theorem collate_batch_encoded_samples_ok (argsort : bool -> list nat -> list nat)
    process tokenize token_mapping char_mapping (batch : list EncodedSample)
    (max_question_size max_context_size : nat) :
  argsort_contract argsort ->
  2 <= length batch ->
  Forall (fun s => exists text qas ctx ecqa eqa h,
    ContextQuestionAnswer.init text qas process tokenize = QOk ctx /\
    Forall (fun qa => exists question_id qtext answers,
              QuestionAnswer.init question_id qtext answers process tokenize = QOk qa) qas /\
    EncodedContextQuestionAnswer.init ctx token_mapping char_mapping = QOk ecqa /\
    eqa ∈ EncodedContextQuestionAnswer.qas ecqa /\
    EncodedSample_init (EncodedContextQuestionAnswer.word_encoding ecqa)
      (EncodedContextQuestionAnswer.char_encoding ecqa) eqa = QOk (s, h)) batch ->
  exists b, collate_batch argsort batch max_question_size max_context_size = Ok b.
Proof.
  intros Hsort HN Hb. apply collate_batch_ok_of_well_formed; [done|done|].
  eapply Forall_impl; [exact Hb|].
  intros s (text & qas & ctx & ecqa & eqa & h & Hc & Hq & He & Hin & Hs).
  eapply encoded_sample_well_formed; eauto.
Qed.

Lemma collate_batch_encoded_samples_ok_witness :
  let s := mk_sample "q1" [3]%Z [[2; 3; 4]]%Z [1]%Z [[1; 1; 3; 1; 2; 3; 4; 1; 1; 1; 1]]%Z
             [1]%Z [1]%Z in
  argsort_contract (insertion_argsort false) /\
  2 <= length [s; s] /\
  Forall (fun s => exists text qas ctx ecqa eqa h,
    ContextQuestionAnswer.init text qas (fun t => t) example_tokenize = QOk ctx /\
    Forall (fun qa => exists question_id qtext answers,
              QuestionAnswer.init question_id qtext answers (fun t => t) example_tokenize
              = QOk qa) qas /\
    EncodedContextQuestionAnswer.init ctx example_token_mapping example_char_mapping
      = QOk ecqa /\
    eqa ∈ EncodedContextQuestionAnswer.qas ecqa /\
    EncodedSample_init (EncodedContextQuestionAnswer.word_encoding ecqa)
      (EncodedContextQuestionAnswer.char_encoding ecqa) eqa = QOk (s, h)) [s; s] /\
  exists b, collate_batch (insertion_argsort false) [s; s] 1 0 = Ok b.
Proof.
  intros s.
  assert (Hone : exists text qas ctx ecqa eqa h,
    ContextQuestionAnswer.init text qas (fun t => t) example_tokenize = QOk ctx /\
    Forall (fun qa => exists question_id qtext answers,
              QuestionAnswer.init question_id qtext answers (fun t => t) example_tokenize
              = QOk qa) qas /\
    EncodedContextQuestionAnswer.init ctx example_token_mapping example_char_mapping
      = QOk ecqa /\
    eqa ∈ EncodedContextQuestionAnswer.qas ecqa /\
    EncodedSample_init (EncodedContextQuestionAnswer.word_encoding ecqa)
      (EncodedContextQuestionAnswer.char_encoding ecqa) eqa = QOk (s, h)).
  { exists "the red fox", [example_qa],
      (ContextQuestionAnswer.mk [example_qa]
         (Processed.mk "the red fox" "the red fox" (example_tokenize "the red fox"))),
      (EncodedContextQuestionAnswer.mk [1]%Z [[1; 1; 3; 1; 2; 3; 4; 1; 1; 1; 1]]%Z
         [EncodedQuestionAnswer.mk "q1" [3]%Z [[2; 3; 4]]%Z
            [EncodedAnswer.mk 0 0; EncodedAnswer.mk (-1) 0]]),
      (EncodedQuestionAnswer.mk "q1" [3]%Z [[2; 3; 4]]%Z
         [EncodedAnswer.mk 0 0; EncodedAnswer.mk (-1) 0]), true.
    split; [vm_compute; reflexivity|]. split.
    { constructor; [|constructor].
      exists "q1", "red", [example_answer; example_early_answer]. vm_compute. reflexivity. }
    split; [vm_compute; reflexivity|]. split; [simpl; left|].
    vm_compute. reflexivity. }
  assert (Hb : Forall (fun s => exists text qas ctx ecqa eqa h,
    ContextQuestionAnswer.init text qas (fun t => t) example_tokenize = QOk ctx /\
    Forall (fun qa => exists question_id qtext answers,
              QuestionAnswer.init question_id qtext answers (fun t => t) example_tokenize
              = QOk qa) qas /\
    EncodedContextQuestionAnswer.init ctx example_token_mapping example_char_mapping
      = QOk ecqa /\
    eqa ∈ EncodedContextQuestionAnswer.qas ecqa /\
    EncodedSample_init (EncodedContextQuestionAnswer.word_encoding ecqa)
      (EncodedContextQuestionAnswer.char_encoding ecqa) eqa = QOk (s, h)) [s; s]).
  { constructor; [exact Hone|]. constructor; [exact Hone|]. constructor. }
  split; [apply insertion_argsort_contract|]. split; [simpl; lia|]. split; [exact Hb|].
  apply (collate_batch_encoded_samples_ok (insertion_argsort false) (fun t => t)
           example_tokenize example_token_mapping example_char_mapping [s; s] 1 0).
  - apply insertion_argsort_contract.
  - simpl; lia.
  - exact Hb.
Defined.
